(** * f5_tts/model/utils.py: text-to-token alignment and the repetition filter

    A shallow embedding of [convert_char_to_pinyin] and [repetition_found]
    from [src/f5_tts/model/utils.py].

    - A Python [str] is a list of Unicode code points ([pystr]).
    - Dictionaries ([custom_trans], [translation_map], the [defaultdict] of
      [repetition_found]) are stdpp [gmap]s.
    - [jieba.cut], [pypinyin.lazy_pinyin] and [g2pw.lazy_pinyin] are external
      collaborators: they are parameters of the engine section.
    - Exceptions are a [result] type; [print] appends to a list of
      diagnostics. *)

From Stdlib Require Import ZArith NArith Ascii String Sorted.
From stdpp Require Import base numbers list option gmap.

Open Scope N_scope.

(** ** Python strings *)

(** A code point, as returned by [ord]. *)
Abbreviation char := N.

(** A Python [str]: its code points, in order. *)
Abbreviation pystr := (list char).

(** ASCII literals of the source, as code points. *)
Definition py (s : string) : pystr := map N_of_ascii (list_ascii_of_string s).

(** [x in s] for two strings: [x] occurs in [s] as a contiguous substring. *)
Fixpoint starts_with (s x : pystr) : bool :=
  match x, s with
  | [], _ => true
  | _ :: _, [] => false
  | a :: x', b :: s' => (a =? b) && starts_with s' x'
  end.

Fixpoint py_in (x s : pystr) : bool :=
  starts_with s x ||
  match s with
  | [] => false
  | _ :: s' => py_in x s'
  end.

(** Slice indices as Python normalises them: negative counts from the end,
    everything is clamped to [0, len]. *)
Definition slice_index (len k : Z) : Z :=
  if (k <? 0)%Z then Z.max 0 (k + len) else Z.min k len.

(** [s[a:b]]. *)
Definition py_slice (s : pystr) (a b : Z) : pystr :=
  let n := Z.of_nat (length s) in
  let a' := slice_index n a in
  let b' := slice_index n b in
  take (Z.to_nat (b' - a')) (drop (Z.to_nat a') s).

(** [range(n)]. *)
Definition py_range (n : Z) : list Z := Z.of_nat <$> seq 0 (Z.to_nat n).

(** ** repetition_found *)

(** [pattern_count[pattern] += 1] on a [defaultdict(int)]. *)
Definition count_pattern (pattern_count : gmap pystr Z) (pattern : pystr)
  : gmap pystr Z :=
  <[pattern := (default 0 (pattern_count !! pattern) + 1)%Z]> pattern_count.

(** The first loop: one window per start index. *)
Definition pattern_counts (text : pystr) (length_ : Z) : gmap pystr Z :=
  foldl (fun pattern_count i =>
           count_pattern pattern_count (py_slice text i (i + length_)))
        ∅ (py_range (Z.of_nat (length text) - length_ + 1)).

(** The second loop returns at the first count above the tolerance. *)
Definition repetition_found (text : pystr) (length_ tolerance : Z) : bool :=
  existsb (fun '(_, count) => (tolerance <? count)%Z)
          (map_to_list (pattern_counts text length_)).

(** ** Characters *)

(** Number of bytes of a code point in UTF-8; a lone surrogate cannot be
    encoded ([bytes(seg, "UTF-8")] raises [UnicodeEncodeError]). *)
Definition utf8_width (c : char) : option nat :=
  if c <? 0x80 then Some 1%nat
  else if c <? 0x800 then Some 2%nat
  else if (0xD800 <=? c) && (c <=? 0xDFFF) then None
  else if c <? 0x10000 then Some 3%nat
  else Some 4%nat.

(** [len(bytes(seg, "UTF-8"))]. *)
Fixpoint utf8_len (seg : pystr) : option nat :=
  match seg with
  | [] => Some 0%nat
  | c :: seg' =>
      match utf8_width c, utf8_len seg' with
      | Some w, Some n => Some (w + n)%nat
      | _, _ => None
      end
  end.

(** [is_chinese]: U+3100 <= c <= U+9FFF; [c] is always a single character,
    so the comparison of strings is the comparison of code points. *)
Definition is_chinese (c : char) : bool := (0x3100 <=? c) && (c <=? 0x9fff).

Definition is_ascii_letter (c : char) : bool :=
  ((65 <=? c) && (c <=? 90)) || ((97 <=? c) && (c <=? 122)).

Definition is_tone_digit (c : char) : bool := (49 <=? c) && (c <=? 53).

(** [custom_trans]: the table built by [str.maketrans]. *)
Definition custom_trans : gmap char pystr :=
  <[59 := [44]]> (<[0x201C := [34]]> (<[0x201D := [34]]>
  (<[0x2018 := [39]]> (<[0x2019 := [39]]> ∅)))).

(** [text.translate(table)]: characters without an entry are kept. *)
Definition translate (table : gmap char pystr) (text : pystr) : pystr :=
  concat ((fun c => default [c] (table !! c)) <$> text).

(** ** TONE3_STYLE_PATTERN *)

(** [$] of Python's [re]: at the end of the string, or just before a
    newline that ends the string. *)
Definition at_dollar (s : pystr) : bool :=
  match s with
  | [] => true
  | [10] => true
  | _ => false
  end.

(** [[1-5]?$] on the rest of the string. *)
Definition tone_then_dollar (s : pystr) : bool :=
  at_dollar s ||
  match s with
  | c :: s' => is_tone_digit c && at_dollar s'
  | [] => false
  end.

(** [[a-zA-Z]*] is greedy; what it leaves starts with no letter, so giving a
    letter back can never help [[1-5]?$] to match. *)
Fixpoint after_letters (s : pystr) : pystr :=
  match s with
  | c :: s' => if is_ascii_letter c then after_letters s' else s
  | [] => []
  end.

(** [TONE3_STYLE_PATTERN.match(text) is not None] for
    [^[a-zA-Z]+[1-5]?$]. *)
Definition TONE3_STYLE_PATTERN (text : pystr) : bool :=
  match text with
  | c :: s => is_ascii_letter c && tone_then_dollar (after_letters s)
  | [] => false
  end.

(** An element of the list [g2pw.lazy_pinyin] returns: a [str], or
    something else. *)
Inductive pyobj :=
| PyStr (s : pystr)
| PyOther.

Definition is_tone3_style (text : pyobj) : bool :=
  match text with
  | PyStr s => TONE3_STYLE_PATTERN s
  | PyOther => false
  end.

(** [[item for item in sentence if is_tone3_style(item)]]; what is kept is a
    [str]. *)
Definition filtered_sentence_raw (sentence : list pyobj) : list pystr :=
  omap (fun item =>
          match item with
          | PyStr s => if is_tone3_style item then Some s else None
          | PyOther => None
          end) sentence.

Definition shei2 : pystr := py "shei2".
Definition shui2 : pystr := py "shui2".

Definition translation_map : gmap pystr pystr := {[ shei2 := shui2 ]}.

(** [[translation_map.get(item, item) for item in filtered_sentence_raw]]. *)
Definition filtered_sentence (sentence : list pyobj) : list pystr :=
  (fun item => default item (translation_map !! item))
    <$> filtered_sentence_raw sentence.

(** ** Exceptions and diagnostics *)

Inductive exn :=
| UnicodeEncodeError
| IndexError
| UnboundLocalError.

(** What [print] writes; the interpolated values are kept as they are. *)
Inductive diag :=
| DbgTranslated (text : pystr)
| DbgFiltered (filtered : list pystr)
| DbgAdding (token : pystr)
| LengthDifferent (original new : nat)
| DbgOriginal (final_text_list : list (list pystr))
| DbgWhole (final_text_list_whole : list (list pystr)).

(** A call returns a value or raises; what was printed before the raise
    stays printed. *)
Inductive result (A : Type) :=
| Ok (a : A)
| Raise (e : exn) (out : list diag).
Arguments Ok {A} a.
Arguments Raise {A} e out.

(** The variables of the segment loop. *)
Record walk := Walk {
  char_list : list pystr;
  char_list_whole : list pystr;
  j : nat;
  printed : list diag
}.

(** The variables that survive the loop over the lines; [j] and
    [filtered_sentence] are bound only once a line has been processed. *)
Record batch := Batch {
  final_text_list : list (list pystr);
  final_text_list_whole : list (list pystr);
  last_line : option (nat * list pystr);
  stdout : list diag
}.

Definition space : pystr := [32].

(** The string literal of the literal branch, in which [char_list[-1]] is
    looked up: space, colon, apostrophe, double quote. *)
Definition boundary_chars : pystr := [32; 58; 39; 34].

(** [char_list.append(tok); char_list_whole.append(tok)]. *)
Definition append_both (tok : pystr) (st : walk) : walk :=
  Walk (char_list st ++ [tok]) (char_list_whole st ++ [tok]) (j st) (printed st).

(** [char_list.extend(seg); char_list_whole.extend(seg)]: one entry per
    character. *)
Definition extend_both (seg : pystr) (st : walk) : walk :=
  Walk (char_list st ++ ((fun c => [c]) <$> seg))
       (char_list_whole st ++ ((fun c => [c]) <$> seg)) (j st) (printed st).

(** [char_list and seg_byte_len > 1 and char_list[-1] not in boundary_chars]. *)
Definition boundary_needed (cl : list pystr) (seg_byte_len : nat) : bool :=
  match last cl with
  | None => false
  | Some prev => (1 <? seg_byte_len)%nat && negb (py_in prev boundary_chars)
  end.

(** The branch of pure alphabets and symbols. *)
Definition literal_segment (seg : pystr) (seg_byte_len : nat) (st : walk) : walk :=
  extend_both seg
    (if boundary_needed (char_list st) seg_byte_len
     then append_both space st else st).

(** ** Stand-ins for the collaborators

    Small executable collaborators, used where a statement is run on a
    concrete line. They behave on these lines as the libraries do: the
    segmenter yields runs of ASCII letters and digits and every other
    character on its own; the romanizers give a known hanzi its pinyin and
    return any other run of characters unchanged, as one item. *)
Module Demo.

Definition is_word_char (c : char) : bool :=
  is_ascii_letter c || ((48 <=? c) && (c <=? 57)).

Definition flush (run : pystr) : list pystr :=
  match run with
  | [] => []
  | _ => [run]
  end.

Fixpoint cut_from (run text : pystr) : list pystr :=
  match text with
  | [] => flush run
  | c :: text' =>
      if is_word_char c then cut_from (run ++ [c]) text'
      else flush run ++ [c] :: cut_from [] text'
  end.

Definition cut (text : pystr) : list pystr := cut_from [] text.

(** 客 ke4, 气 qi4, 谁 shei2 (as the sentence model reads it). *)
Definition ke : char := 0x5BA2.
Definition qi : char := 0x6C14.
Definition shei : char := 0x8C01.

Definition pinyin_table : gmap char pystr :=
  <[ke := py "ke4"]> (<[qi := py "qi4"]> (<[shei := py "shei2"]> ∅)).

Fixpoint pinyin_from (run text : pystr) : list pystr :=
  match text with
  | [] => flush run
  | c :: text' =>
      match pinyin_table !! c with
      | Some p => flush run ++ p :: pinyin_from [] text'
      | None => pinyin_from (run ++ [c]) text'
      end
  end.

Definition lazy_pinyin (seg : pystr) : list pystr := pinyin_from [] seg.

Definition g2pw_lazy_pinyin (text : pystr) : list pyobj :=
  PyStr <$> pinyin_from [] text.

(** The line go followed by 客. *)
Definition go_ke : pystr := py "go" ++ [ke].

(** U+3231, a parenthesized ideograph: inside the range of [is_chinese], with
    no reading in the table. *)
Definition kabu : char := 0x3231.

End Demo.

(** ** Reference notions used in the statements *)

(** The overlapping windows of a given size, and how often one occurs. *)
Definition windows (text : pystr) (n : nat) : list pystr :=
  (fun i => take n (drop i text)) <$> seq 0 (length text + 1 - n).

Definition occurrences (p : pystr) (ps : list pystr) : Z :=
  Z.of_nat (length (filter (fun q => q = p) ps)).

(** Entries made of one character each. *)
Definition chars (seg : pystr) : list pystr := (fun c => [c]) <$> seg.

(** A tone: nothing, or one digit from 1 to 5. *)
Definition single_tone (tone : pystr) : Prop :=
  tone = [] \/ exists d, tone = [d] /\ is_tone_digit d = true.

Definition single_newline (nl : pystr) : Prop := nl = [] \/ nl = [10].

(** Letters, then at most one tone digit, and nothing after. *)
Definition tone3_shape (s : pystr) : Prop :=
  exists letters tone,
    s = letters ++ tone /\ letters <> [] /\
    Forall (fun c => is_ascii_letter c = true) letters /\ single_tone tone.

(** Characters of the Chinese block in a string. *)
Definition chinese_count (s : pystr) : nat :=
  length (filter (fun c => is_chinese c = true) s).

(** The byte-width classes of a segment: literal when every character takes
    one byte, pure east asian when it is not literal and takes three bytes
    per character. *)
Definition literal (seg : pystr) : bool :=
  bool_decide (utf8_len seg = Some (length seg)).

Definition pure_east_asian (seg : pystr) : bool :=
  negb (literal seg) && bool_decide (utf8_len seg = Some (3 * length seg)%nat).

(** The literal-segment rule on a plain output list. *)
Definition literal_rule (out : list pystr) (seg : pystr) : list pystr :=
  (if boundary_needed out (length seg) then out ++ [space] else out)
    ++ chars seg.

(** Pass-through of a segmented line: the literal rule on literal segments,
    the characters as they are on the others. *)
Definition pass_segment (out : list pystr) (seg : pystr) : list pystr :=
  if literal seg then literal_rule out seg else out ++ chars seg.

Definition pass_through (segs : list pystr) : list pystr :=
  foldl pass_segment [] segs.

(** A segmented line without east asian text, as the engine sees it: no
    segment is pure east asian by its byte width, and no segment holds a
    character of the Chinese block. *)
Definition no_east_asian (segs : list pystr) : Prop :=
  Forall (fun seg => pure_east_asian seg = false /\
                     Forall (fun c => is_chinese c = false) seg) segs.

(** Case analysis on the comparisons of code points in the goal. *)
Ltac cases_N :=
  repeat match goal with
    | |- context [N.leb ?a ?b] => destruct (N.leb_spec a b)
    | |- context [N.ltb ?a ?b] => destruct (N.ltb_spec a b)
    | H : context [N.leb ?a ?b] |- _ => destruct (N.leb_spec a b)
    | H : context [N.ltb ?a ?b] |- _ => destruct (N.ltb_spec a b)
    end;
  simpl in *; try done; try lia.

(** Closed goals over concrete lists: compute the list, then each entry. *)
Ltac by_evaluation :=
  unfold no_east_asian;
  repeat match goal with
    | |- Forall _ ?l =>
        let l' := eval vm_compute in l in change l with l'; constructor
    | |- Forall2 _ _ _ => constructor
    | |- _ /\ _ => split
    | |- _ = _ => vm_compute; reflexivity
    | |- is_Some _ => vm_compute; by eexists
    end.

(** ** Calls that return or raise, outside the engine *)

(** The exceptions of the helpers next to those of the engine. *)
Inductive raised :=
| Exn (e : exn)
| RuntimeError
| KeyError
| AssertionError.

Inductive outcome (A : Type) :=
| Returns (a : A)
| Raises (e : raised).
Arguments Returns {A} a.
Arguments Raises {A} e.

(** What the context-free side of a processed line shows: the exception, or
    [char_list] and the cursor. *)
Definition context_free_view (r : result walk) : exn + (list pystr * nat) :=
  match r with
  | Ok st => inr (char_list st, j st)
  | Raise e _ => inl e
  end.

(** ** Tensor helpers

    An integer tensor of one dimension is the list of its entries; a boolean
    tensor of two dimensions is the list of its rows. *)

(** [t.amax()] and [seq_len.max()]: the reduction of an empty tensor
    raises. *)
Definition tensor_max (t : list Z) : outcome Z :=
  match t with
  | [] => Raises RuntimeError
  | x :: t' => Returns (foldl Z.max x t')
  end.

(** [torch.arange(n)]: a negative bound raises. *)
Definition arange (n : Z) : outcome (list Z) :=
  if (n <? 0)%Z then Raises RuntimeError else Returns (py_range n).

(** One row of [seq[None, :] < t[:, None]]. *)
Definition lens_row (seq_ : list Z) (ti : Z) : list bool :=
  (fun k => (k <? ti)%Z) <$> seq_.

(** [lens_to_mask(t, length)]. *)
Definition lens_to_mask (t : list Z) (length_ : option Z)
  : outcome (list (list bool)) :=
  match (match length_ with
         | None => tensor_max t
         | Some l => Returns l
         end) with
  | Raises e => Raises e
  | Returns l =>
      match arange l with
      | Raises e => Raises e
      | Returns seq_ => Returns (lens_row seq_ <$> t)
      end
  end.

(** [a & b] on masks of the same width: the numbers of rows are equal, or
    one of them is 1 and its row is used throughout; anything else cannot be
    broadcast. *)
Definition broadcast_and (a b : list (list bool)) : outcome (list (list bool)) :=
  if (length a =? length b)%nat then Returns (zip_with (zip_with andb) a b)
  else
    match a, b with
    | [ra], _ => Returns (zip_with andb ra <$> b)
    | _, [rb] => Returns ((fun ra => zip_with andb ra rb) <$> a)
    | _, _ => Raises RuntimeError
    end.

(** [mask_from_start_end_indices(seq_len, start, end)]. *)
Definition mask_from_start_end_indices (seq_len start end_ : list Z)
  : outcome (list (list bool)) :=
  match tensor_max seq_len with
  | Raises e => Raises e
  | Returns max_seq_len =>
      match arange max_seq_len with
      | Raises e => Raises e
      | Returns seq_ =>
          let start_mask :=
            (fun s => (fun k => (s <=? k)%Z) <$> seq_) <$> start in
          let end_mask := (fun e => (fun k => (k <? e)%Z) <$> seq_) <$> end_ in
          broadcast_and start_mask end_mask
      end
  end.

(** A row of width [n] that is true on its first [ti] positions and false
    after. *)
Definition prefix_row (n ti : Z) : list bool :=
  replicate (Z.to_nat n `min` Z.to_nat ti) true ++
  replicate (Z.to_nat n - Z.to_nat ti) false.

(** Number of true entries of a row. *)
Definition count_true (row : list bool) : nat :=
  length (filter (fun b => b = true) row).

(** ** Tokenizers *)

(** The bytes of a code point in UTF-8, as [bytes(t, "UTF-8")] lists them. *)
Definition utf8_bytes (c : char) : option (list Z) :=
  let z := Z.of_N c in
  if c <? 0x80 then Some [z]
  else if c <? 0x800 then Some [0xC0 + z / 64; 0x80 + z mod 64]%Z
  else if (0xD800 <=? c) && (c <=? 0xDFFF) then None
  else if c <? 0x10000 then
    Some [0xE0 + z / 4096; 0x80 + (z / 64) mod 64; 0x80 + z mod 64]%Z
  else
    Some [0xF0 + z / 262144; 0x80 + (z / 4096) mod 64;
          0x80 + (z / 64) mod 64; 0x80 + z mod 64]%Z.

(** [[*bytes(t, "UTF-8")]]. *)
Fixpoint encode_utf8 (t : pystr) : option (list Z) :=
  match t with
  | [] => Some []
  | c :: t' =>
      match utf8_bytes c, encode_utf8 t' with
      | Some bs, Some rest => Some (bs ++ rest)
      | _, _ => None
      end
  end.

(** [pad_sequence(rows, padding_value=..., batch_first=True)]: every row is
    filled up to the longest one; an empty list of rows raises. *)
Definition pad_sequence (rows : list (list Z)) (padding_value : Z)
  : outcome (list (list Z)) :=
  match rows with
  | [] => Raises RuntimeError
  | _ =>
      let width := max_list (length <$> rows) in
      Returns ((fun r => r ++ replicate (width - length r) padding_value)
                 <$> rows)
  end.

(** The list comprehension of [list_str_to_tensor]: the first string that
    cannot be encoded raises. *)
Fixpoint encode_all (text : list pystr) : outcome (list (list Z)) :=
  match text with
  | [] => Returns []
  | t :: text' =>
      match encode_utf8 t with
      | None => Raises (Exn UnicodeEncodeError)
      | Some bs =>
          match encode_all text' with
          | Returns rows => Returns (bs :: rows)
          | Raises e => Raises e
          end
      end
  end.

(** [list_str_to_tensor(text, padding_value)]. *)
Definition list_str_to_tensor (text : list pystr) (padding_value : Z)
  : outcome (list (list Z)) :=
  match encode_all text with
  | Returns list_tensors => pad_sequence list_tensors padding_value
  | Raises e => Raises e
  end.

(** [list_str_to_idx(text, vocab_char_map, padding_value)]; an element of
    [text] is the list of its tokens: the characters of a [str], or the
    entries of a list of strings. *)
Definition list_str_to_idx (text : list (list pystr))
    (vocab_char_map : gmap pystr Z) (padding_value : Z)
  : outcome (list (list Z)) :=
  pad_sequence
    ((fun t : list pystr =>
        (fun c : pystr => default 0%Z (vocab_char_map !! c)) <$> t) <$> text)
    padding_value.

(** [char[:-1]]. *)
Definition line_key (line : pystr) : pystr := take (length line - 1) line.

(** The loop [for i, char in enumerate(f): vocab_char_map[char[:-1]] = i]
    over the lines of the file. *)
Definition read_vocab (lines : list pystr) : gmap pystr Z :=
  foldl (fun vocab_char_map '(i, line) =>
           <[line_key line := Z.of_nat i]> vocab_char_map)
        ∅ (zip (seq 0 (length lines)) lines).

(** [os.path.join(a, b)] with the separator of POSIX. *)
Definition path_join (a b : pystr) : pystr :=
  match b with
  | 47 :: _ => b
  | _ =>
      match last a with
      | None => b
      | Some 47 => a ++ b
      | Some _ => a ++ [47] ++ b
      end
  end.

(** [get_tokenizer(dataset_name, tokenizer)]. [open_] gives the lines of a
    text file, or the exception of [open]; [data] is the directory
    [files("f5_tts").joinpath("../../data")]. *)
Definition get_tokenizer (open_ : pystr -> outcome (list pystr)) (data : pystr)
    (dataset_name tokenizer : pystr)
  : outcome (option (gmap pystr Z) * Z) :=
  if bool_decide (tokenizer = py "pinyin" \/ tokenizer = py "char") then
    let tokenizer_path :=
      path_join data (dataset_name ++ py "_" ++ tokenizer ++ py "/vocab.txt") in
    match open_ tokenizer_path with
    | Raises e => Raises e
    | Returns lines =>
        let vocab_char_map := read_vocab lines in
        let vocab_size := Z.of_nat (size vocab_char_map) in
        match vocab_char_map !! py " " with
        | None => Raises KeyError
        | Some i =>
            if (i =? 0)%Z then Returns (Some vocab_char_map, vocab_size)
            else Raises AssertionError
        end
    end
  else if bool_decide (tokenizer = py "byte") then Returns (None, 256%Z)
  else if bool_decide (tokenizer = py "custom") then
    match open_ dataset_name with
    | Raises e => Raises e
    | Returns lines =>
        let vocab_char_map := read_vocab lines in
        Returns (Some vocab_char_map, Z.of_nat (size vocab_char_map))
    end
  else Raises (Exn UnboundLocalError).

(** ** The pruned sampling steps *)

(** [predefined_timesteps]. *)
Definition predefined_timesteps : gmap Z (list Z) :=
  list_to_map
    [(5, [0; 2; 4; 8; 16; 32]);
     (6, [0; 2; 4; 6; 8; 16; 32]);
     (7, [0; 2; 4; 6; 8; 16; 24; 32]);
     (10, [0; 2; 4; 6; 8; 12; 16; 20; 24; 28; 32]);
     (12, [0; 2; 4; 6; 8; 10; 12; 14; 16; 20; 24; 28; 32]);
     (16, [0; 1; 2; 3; 4; 5; 6; 7; 8; 10; 12; 14; 16; 20; 24; 28; 32])]%Z.

(** What [get_epss_timesteps] returns: [torch.linspace(0, 1, steps)], or
    [dt * torch.tensor(t)] with [dt = 1 / 32]; the entries of [t] are kept as
    the integers of the table. *)
Inductive timesteps :=
| Linspace (steps : Z)
| DtTimes (t : list Z).

Definition get_epss_timesteps (n : Z) : timesteps :=
  let t := default [] (predefined_timesteps !! n) in
  match t with
  | [] => Linspace (n + 1)
  | _ => DtTimes t
  end.

Section Engine.

(** [jieba.cut], [pypinyin.lazy_pinyin(_, style=Style.TONE3,
    tone_sandhi=True)] and [g2pw.lazy_pinyin(_, neutral_tone_with_five=False,
    style=Style.TONE3)]. The romanizer object is the argument [g2pw], or the
    one built when it is [None]; the initialisation of jieba leaves no trace
    in the result. *)
Variable cut : pystr -> list pystr.
Variable lazy_pinyin : pystr -> list pystr.
Variable g2pw_lazy_pinyin : pystr -> list pyobj.
Variables polyphone isDebug : bool.

(** [if isDebug: print(...)]. *)
Definition debug (d : diag) : list diag := if isDebug then [d] else [].

(** [if (j < chinese_char_len): char_list_whole.append(filtered_sentence[j])]
    followed by [j = j + 1]; [filtered_sentence[j]] exists exactly when
    [j < chinese_char_len]. *)
Definition take_token (filtered : list pystr) (st : walk) : walk :=
  match filtered !! j st with
  | Some tok =>
      Walk (char_list st) (char_list_whole st ++ [tok]) (S (j st))
           (printed st ++ debug (DbgAdding tok))
  | None => Walk (char_list st) (char_list_whole st) (S (j st)) (printed st)
  end.

(** One round of [for i, c in enumerate(seg)] in the branch of pure east
    asian characters; [seg_[i]] raises [IndexError] past the end of [seg_]. *)
Definition pronounceable_char (seg_ filtered : list pystr) (i : nat) (c : char)
    (st : walk) : result walk :=
  let chinese := is_chinese c in
  let st1 := if chinese then append_both space st else st in
  match seg_ !! i with
  | None => Raise IndexError (printed st1)
  | Some tok =>
      let st2 := Walk (char_list st1 ++ [tok]) (char_list_whole st1)
                      (j st1) (printed st1) in
      Ok (if chinese then take_token filtered st2
          else Walk (char_list st2) (char_list_whole st2 ++ [tok])
                    (j st2) (printed st2))
  end.

Fixpoint pronounceable_loop (seg_ filtered : list pystr) (i : nat)
    (cs : pystr) (st : walk) : result walk :=
  match cs with
  | [] => Ok st
  | c :: cs' =>
      match pronounceable_char seg_ filtered i c st with
      | Ok st' => pronounceable_loop seg_ filtered (S i) cs' st'
      | Raise e out => Raise e out
      end
  end.

(** One round of [for c in seg] in the branch of mixed characters. *)
Definition mixed_char (filtered : list pystr) (st : walk) (c : char) : walk :=
  if c <? 256 then append_both [c] st
  else if is_chinese c then
    let st1 := append_both space st in
    take_token filtered
      (Walk (char_list st1 ++ lazy_pinyin [c]) (char_list_whole st1)
            (j st1) (printed st1))
  else append_both [c] st.

Definition mixed_segment (filtered : list pystr) (seg : pystr) (st : walk) : walk :=
  foldl (mixed_char filtered) st seg.

(** The body of [for seg in jieba.cut(text)]. *)
Definition walk_segment (filtered : list pystr) (seg : pystr) (st : walk)
    : result walk :=
  match utf8_len seg with
  | None => Raise UnicodeEncodeError (printed st)
  | Some seg_byte_len =>
      if (seg_byte_len =? length seg)%nat then
        Ok (literal_segment seg seg_byte_len st)
      else if polyphone && (seg_byte_len =? 3 * length seg)%nat then
        pronounceable_loop (lazy_pinyin seg) filtered 0 seg st
      else Ok (mixed_segment filtered seg st)
  end.

Fixpoint walk_segments (filtered : list pystr) (segs : list pystr) (st : walk)
    : result walk :=
  match segs with
  | [] => Ok st
  | seg :: segs' =>
      match walk_segment filtered seg st with
      | Ok st' => walk_segments filtered segs' st'
      | Raise e out => Raise e out
      end
  end.

(** The stream the cursor of a line runs over. *)
Definition line_stream (line : pystr) : list pystr :=
  filtered_sentence (g2pw_lazy_pinyin (translate custom_trans line)).

(** The body of [for text in text_list], up to the two final appends. *)
Definition convert_line (line : pystr) : result walk :=
  let text := translate custom_trans line in
  let filtered := line_stream line in
  walk_segments filtered (cut text)
    (Walk [] [] 0 (debug (DbgTranslated text) ++ debug (DbgFiltered filtered))).

Fixpoint lines_loop (text_list : list pystr) (b : batch) : result batch :=
  match text_list with
  | [] => Ok b
  | line :: rest =>
      match convert_line line with
      | Ok st =>
          lines_loop rest
            (Batch (final_text_list b ++ [char_list st])
                   (final_text_list_whole b ++ [char_list_whole st])
                   (Some (j st, line_stream line))
                   (stdout b ++ printed st))
      | Raise e out => Raise e (stdout b ++ out)
      end
  end.

(** What the loop leaves behind when the lines end in the states [sts]. *)
Definition collect (b : batch) (lines : list pystr) (sts : list walk) : batch :=
  Batch (final_text_list b ++ (char_list <$> sts))
        (final_text_list_whole b ++ (char_list_whole <$> sts))
        (match last (zip lines sts) with
         | Some (line, st) => Some (j st, line_stream line)
         | None => last_line b
         end)
        (stdout b ++ concat (printed <$> sts)).

(** The check after the loop reads [j] and [filtered_sentence]; both are
    unbound when the loop body never ran. *)
Definition reconcile (b : batch) : result (list (list pystr) * list diag) :=
  match last_line b with
  | None => Raise UnboundLocalError (stdout b)
  | Some (cursor, filtered) =>
      if bool_decide (cursor ≠ length filtered) then
        Ok (final_text_list b,
            stdout b ++ [LengthDifferent cursor (length filtered)])
      else
        Ok (final_text_list_whole b,
            stdout b ++ debug (DbgOriginal (final_text_list b))
                     ++ debug (DbgWhole (final_text_list_whole b)))
  end.

(** [convert_char_to_pinyin(text_list, polyphone, g2pw, isDebug)]: the
    returned list and what was printed. *)
Definition convert_char_to_pinyin (text_list : list pystr)
    : result (list (list pystr) * list diag) :=
  match lines_loop text_list (Batch [] [] None []) with
  | Ok b => reconcile b
  | Raise e out => Raise e out
  end.


(** * Properties of the engine *)

(** ** Byte widths and the Chinese block *)

Lemma utf8_width_pos (c : char) (w : nat) :
  utf8_width c = Some w -> (1 <= w)%nat.
Proof. unfold utf8_width. intros H. cases_N; inversion H; lia. Qed.

Lemma utf8_len_ge (seg : pystr) (n : nat) :
  utf8_len seg = Some n -> (length seg <= n)%nat.
Proof.
  revert n. induction seg as [|c seg IH]; simpl; intros n H.
  - inversion H. lia.
  - destruct (utf8_width c) as [w|] eqn:Hw; [| done].
    destruct (utf8_len seg) as [m|]; [| done].
    inversion H; subst. apply utf8_width_pos in Hw.
    specialize (IH m eq_refl). lia.
Qed.

Lemma utf8_len_literal (seg : pystr) :
  utf8_len seg = Some (length seg) -> Forall (fun c => c < 0x80) seg.
Proof.
  induction seg as [|c seg IH]; simpl; intros H; [constructor |].
  destruct (utf8_width c) as [w|] eqn:Hw; [| done].
  destruct (utf8_len seg) as [m|] eqn:Hm; [| done].
  inversion H as [Hsum]. pose proof (utf8_width_pos _ _ Hw).
  pose proof (utf8_len_ge _ _ Hm).
  assert (w = 1%nat) by lia. assert (m = length seg) by lia. subst.
  constructor; [| by apply IH].
  unfold utf8_width in Hw. cases_N; by inversion Hw.
Qed.

Lemma is_chinese_width (c : char) :
  is_chinese c = true -> utf8_width c = Some 3%nat.
Proof. unfold is_chinese, utf8_width. cases_N. Qed.

Lemma chinese_count_app (s t : pystr) :
  chinese_count (s ++ t) = (chinese_count s + chinese_count t)%nat.
Proof. unfold chinese_count. by rewrite filter_app, length_app. Qed.

Lemma chinese_count_cons (c : char) (s : pystr) :
  chinese_count (c :: s) =
  ((if is_chinese c then 1 else 0) + chinese_count s)%nat.
Proof.
  unfold chinese_count. rewrite filter_cons.
  destruct (is_chinese c); by case_decide.
Qed.

Lemma chinese_count_zero (s : pystr) :
  Forall (fun c => is_chinese c = false) s -> chinese_count s = 0%nat.
Proof.
  induction 1 as [|c s Hc _ IH]; [done |].
  by rewrite chinese_count_cons, Hc, IH.
Qed.

(** A literal segment holds no character of the Chinese block. *)
Lemma literal_no_chinese (seg : pystr) :
  utf8_len seg = Some (length seg) -> Forall (fun c => is_chinese c = false) seg.
Proof.
  intros H. apply utf8_len_literal in H.
  eapply Forall_impl; [exact H |]. intros c Hc. unfold is_chinese. simpl in Hc. cases_N.
Qed.

(** ** The cursor counts the characters of the Chinese block *)

Lemma take_token_j (filtered : list pystr) (st : walk) :
  j (take_token filtered st) = S (j st).
Proof. unfold take_token. by destruct (filtered !! j st). Qed.

Lemma take_token_char_list (filtered : list pystr) (st : walk) :
  char_list (take_token filtered st) = char_list st.
Proof. unfold take_token. by destruct (filtered !! j st). Qed.

Lemma pronounceable_char_j (seg_ filtered : list pystr) (i : nat) (c : char)
    (st st' : walk) :
  pronounceable_char seg_ filtered i c st = Ok st' ->
  j st' = ((if is_chinese c then 1 else 0) + j st)%nat.
Proof.
  unfold pronounceable_char. destruct (seg_ !! i) as [tok|]; [| done].
  intros H. inversion H; subst. destruct (is_chinese c); [| done].
  by rewrite take_token_j.
Qed.

Lemma pronounceable_loop_j (seg_ filtered : list pystr) (cs : pystr) :
  forall (i : nat) (st st' : walk),
    pronounceable_loop seg_ filtered i cs st = Ok st' ->
    j st' = (j st + chinese_count cs)%nat.
Proof.
  induction cs as [|c cs IH]; simpl; intros i st st' H.
  - inversion H; subst. unfold chinese_count. simpl. lia.
  - destruct (pronounceable_char seg_ filtered i c st) as [st1|] eqn:Hc; [| done].
    apply IH in H. apply pronounceable_char_j in Hc.
    rewrite chinese_count_cons. lia.
Qed.

Lemma mixed_char_j (filtered : list pystr) (st : walk) (c : char) :
  j (mixed_char filtered st c) = ((if is_chinese c then 1 else 0) + j st)%nat.
Proof.
  unfold mixed_char. destruct (N.ltb_spec c 256) as [Hc|Hc].
  - assert (Hn : is_chinese c = false) by (unfold is_chinese; cases_N).
    by rewrite Hn.
  - destruct (is_chinese c); [| done]. by rewrite take_token_j.
Qed.

Lemma mixed_segment_j (filtered : list pystr) (seg : pystr) :
  forall st : walk,
    j (mixed_segment filtered seg st) = (j st + chinese_count seg)%nat.
Proof.
  unfold mixed_segment. induction seg as [|c seg IH]; simpl; intros st.
  - unfold chinese_count. simpl. lia.
  - rewrite IH, mixed_char_j, chinese_count_cons. lia.
Qed.

Lemma walk_segment_j (filtered : list pystr) (seg : pystr) (st st' : walk) :
  walk_segment filtered seg st = Ok st' ->
  j st' = (j st + chinese_count seg)%nat.
Proof.
  unfold walk_segment. destruct (utf8_len seg) as [n|] eqn:Hn; [| done].
  destruct (Nat.eqb_spec n (length seg)) as [->|Hne].
  - intros H. inversion H; subst. simpl.
    rewrite chinese_count_zero by (by apply literal_no_chinese).
    destruct (boundary_needed _ _); simpl; lia.
  - destruct (polyphone && (n =? 3 * length seg)%nat).
    + apply pronounceable_loop_j.
    + intros H. inversion H; subst. apply mixed_segment_j.
Qed.

Lemma walk_segments_j (filtered : list pystr) (segs : list pystr) :
  forall st st' : walk,
    walk_segments filtered segs st = Ok st' ->
    j st' = (j st + chinese_count (concat segs))%nat.
Proof.
  induction segs as [|seg segs IH]; simpl; intros st st' H.
  - inversion H; subst. unfold chinese_count. simpl. lia.
  - destruct (walk_segment filtered seg st) as [st1|] eqn:Hs; [| done].
    apply IH in H. apply walk_segment_j in Hs.
    rewrite chinese_count_app. lia.
Qed.

(** The cursor of a processed line is the number of characters of the
    Chinese block in its segments. *)
Lemma convert_line_j (line : pystr) (st : walk) :
  convert_line line = Ok st ->
  j st = chinese_count (concat (cut (translate custom_trans line))).
Proof. unfold convert_line. intros H. by apply walk_segments_j in H. Qed.

(** ** The loop over the lines *)

Lemma last_zip_cons (line : pystr) (st : walk) (lines : list pystr)
    (sts : list walk) :
  last (zip (line :: lines) (st :: sts)) =
  match last (zip lines sts) with
  | Some p => Some p
  | None => Some (line, st)
  end.
Proof. simpl. rewrite last_cons. by destruct (last (zip lines sts)). Qed.

(** Lines are processed independently: the loop returns exactly when every
    line does, and then holds the per-line lists in order. *)
Lemma lines_loop_collect (lines : list pystr) (sts : list walk) :
  Forall2 (fun line st => convert_line line = Ok st) lines sts ->
  forall b, lines_loop lines b = Ok (collect b lines sts).
Proof.
  induction 1 as [|line st lines sts Hline _ IH]; intros b.
  - simpl. unfold collect. simpl. rewrite !app_nil_r. by destruct b.
  - cbn [lines_loop]. rewrite Hline, IH. f_equal.
    unfold collect. rewrite last_zip_cons. cbn [fmap list_fmap concat
      final_text_list final_text_list_whole last_line stdout].
    rewrite <- !app_assoc. simpl.
    by destruct (last (zip lines sts)) as [[? ?]|].
Qed.

Lemma lines_loop_inv (lines : list pystr) :
  forall b b',
    lines_loop lines b = Ok b' ->
    exists sts,
      Forall2 (fun line st => convert_line line = Ok st) lines sts /\
      b' = collect b lines sts.
Proof.
  induction lines as [|line lines IH]; intros b b' H.
  - exists []. split; [constructor |].
    rewrite (lines_loop_collect [] [] ltac:(constructor)) in H.
    by inversion H.
  - cbn [lines_loop] in H.
    destruct (convert_line line) as [st|] eqn:Hline; [| done].
    destruct (IH _ _ H) as [sts [Hsts _]].
    exists (st :: sts). assert (Hall : Forall2
      (fun line st => convert_line line = Ok st) (line :: lines) (st :: sts))
      by (by constructor).
    split; [done |].
    pose proof (lines_loop_collect _ _ Hall b) as Hc.
    cbn [lines_loop] in Hc. rewrite Hline in Hc. congruence.
Qed.

(** The call on a batch whose lines all return: the check after the loop
    looks at the last line only. *)
Lemma convert_snoc (pre : list pystr) (line : pystr) (sts : list walk)
    (st : walk) :
  Forall2 (fun l s => convert_line l = Ok s) pre sts ->
  convert_line line = Ok st ->
  convert_char_to_pinyin (pre ++ [line]) =
    reconcile (Batch (char_list <$> sts ++ [st])
                     (char_list_whole <$> sts ++ [st])
                     (Some (j st, line_stream line))
                     (concat (printed <$> sts ++ [st]))).
Proof.
  intros Hpre Hline. unfold convert_char_to_pinyin.
  assert (Hall : Forall2 (fun l s => convert_line l = Ok s)
                   (pre ++ [line]) (sts ++ [st]))
    by (apply Forall2_app; [done | by constructor]).
  rewrite (lines_loop_collect _ _ Hall). f_equal. unfold collect.
  rewrite zip_with_app by (by eapply Forall2_length). simpl.
  by rewrite last_snoc.
Qed.

Lemma convert_inv (text_list : list pystr) (out : list (list pystr))
    (msgs : list diag) :
  convert_char_to_pinyin text_list = Ok (out, msgs) ->
  exists pre line sts st,
    text_list = pre ++ [line] /\
    Forall2 (fun l s => convert_line l = Ok s) pre sts /\
    convert_line line = Ok st.
Proof.
  unfold convert_char_to_pinyin. intros H.
  destruct (lines_loop text_list _) as [b|] eqn:Hloop; [| done].
  apply lines_loop_inv in Hloop as [sts0 [Hall ->]].
  destruct text_list as [|l0 ls] using rev_ind.
  - apply Forall2_nil_inv_l in Hall as ->. done.
  - apply Forall2_app_inv_l in Hall as (sts & k & Hpre & Hk & ->).
    apply Forall2_cons_inv_l in Hk as (st & k' & Hline & Hnil & ->).
    apply Forall2_nil_inv_l in Hnil as ->.
    by exists ls, l0, sts, st.
Qed.

(** ** Reconciliation *)

(** C10. On the empty batch the check after the loop reads [j], which no
    line has bound: the call raises instead of returning an empty list. *)
Theorem convert_empty_batch_raises :
  convert_char_to_pinyin [] = Raise UnboundLocalError [].
Proof. reflexivity. Qed.

(** C1. When every line of a batch is processed, the call returns without
    raising, and the cursor and the filtered stream of the last line alone
    decide what: if they differ, the diagnostic with both counts is printed
    and the context-free sequences of the whole batch are returned; if they
    agree, the merged sequences are. What happened on earlier lines plays no
    part in the choice. *)
Theorem reconciliation_on_last_line (pre : list pystr) (line : pystr)
    (sts : list walk) (st : walk) :
  Forall2 (fun l s => convert_line l = Ok s) pre sts ->
  convert_line line = Ok st ->
  let out := concat (printed <$> sts ++ [st]) in
  let context_free := char_list <$> sts ++ [st] in
  let merged := char_list_whole <$> sts ++ [st] in
  let new := length (line_stream line) in
  convert_char_to_pinyin (pre ++ [line]) =
    if decide (j st = new)
    then Ok (merged,
             out ++ debug (DbgOriginal context_free) ++ debug (DbgWhole merged))
    else Ok (context_free, out ++ [LengthDifferent (j st) new]).
Proof.
  intros Hpre Hline. cbv zeta. rewrite (convert_snoc _ _ _ _ Hpre Hline).
  unfold reconcile. cbn [last_line final_text_list final_text_list_whole stdout].
  destruct (decide (j st = length (line_stream line))) as [Heq|Hne].
  - by rewrite bool_decide_eq_false_2 by (by intros ?).
  - by rewrite bool_decide_eq_true_2.
Qed.

(** C3 (as amended). When the merged sequences are returned, that is when no
    length mismatch is reported, the last line of the batch is aligned: its
    cursor, which is the number of characters of the Chinese block met in
    its segments, equals the length of its filtered stream. *)
Theorem cursor_meets_stream_on_last_line (pre : list pystr) (line : pystr)
    (out : list (list pystr)) (msgs : list diag) :
  convert_char_to_pinyin (pre ++ [line]) = Ok (out, msgs) ->
  (forall a b, LengthDifferent a b ∉ msgs) ->
  exists st,
    convert_line line = Ok st /\
    last out = Some (char_list_whole st) /\
    j st = chinese_count (concat (cut (translate custom_trans line))) /\
    j st = length (line_stream line).
Proof.
  intros Hconv Hquiet.
  destruct (convert_inv _ _ _ Hconv) as (pre' & line' & sts & st & Heq & Hpre & Hline).
  apply app_inj_tail in Heq as [-> ->].
  rewrite (convert_snoc _ _ _ _ Hpre Hline) in Hconv. unfold reconcile in Hconv.
  cbn [last_line final_text_list final_text_list_whole stdout] in Hconv.
  exists st. split; [done |].
  destruct (bool_decide (j st ≠ length (line_stream line'))) eqn:Hdec.
  - inversion Hconv; subst. exfalso.
    apply (Hquiet (j st) (length (line_stream line'))).
    apply elem_of_app. right. left.
  - apply bool_decide_eq_false in Hdec.
    inversion Hconv; subst. rewrite fmap_app. cbn [fmap list_fmap].
    rewrite last_snoc.
    split; [done |]. split; [by apply convert_line_j |].
    by destruct (decide (j st = length (line_stream line'))).
Qed.

(** ** Characters of the Chinese block *)

(** C2 (as amended). On a character of the Chinese block, in the pure east
    asian branch and in the mixed branch alike, both outputs get a space,
    the context-free output gets the context-free token, the cursor
    advances, and the merged output gets the stream token at the cursor when
    there is one and nothing more when the stream is used up. *)
Theorem chinese_char_takes_stream_token (seg_ filtered : list pystr)
    (i : nat) (c : char) (st : walk) (tok : pystr) :
  is_chinese c = true ->
  seg_ !! i = Some tok ->
  let merged :=
    char_list_whole st ++ [space] ++
    match filtered !! j st with Some t => [t] | None => [] end in
  (exists st', pronounceable_char seg_ filtered i c st = Ok st' /\
               char_list st' = char_list st ++ [space; tok] /\
               char_list_whole st' = merged /\
               j st' = S (j st))
  /\ (char_list (mixed_char filtered st c) =
        char_list st ++ space :: lazy_pinyin [c] /\
      char_list_whole (mixed_char filtered st c) = merged /\
      j (mixed_char filtered st c) = S (j st))
  /\ (filtered !! j st = None <-> (length filtered <= j st)%nat).
Proof.
  intros Hc Htok. cbv zeta. split; [| split].
  - unfold pronounceable_char. rewrite Hc, Htok. eexists. split; [done |].
    unfold take_token. simpl.
    destruct (filtered !! j st); simpl; rewrite <- ?app_assoc; by simpl.
  - unfold mixed_char. rewrite Hc.
    destruct (N.ltb_spec c 256) as [Hlt|_];
      [unfold is_chinese in Hc; cases_N |].
    unfold take_token. simpl.
    destruct (filtered !! j st); simpl; rewrite <- ?app_assoc; by simpl.
  - apply lookup_ge_None.
Qed.

(** ** Literal segments and pass-through *)

Lemma literal_segment_eq (seg : pystr) (st : walk) :
  char_list_whole st = char_list st ->
  literal_segment seg (length seg) st =
    Walk (literal_rule (char_list st) seg) (literal_rule (char_list st) seg)
         (j st) (printed st).
Proof.
  intros Hw. unfold literal_segment, literal_rule, extend_both, chars.
  destruct (boundary_needed (char_list st) (length seg)); simpl;
    by rewrite Hw.
Qed.

Lemma mixed_segment_plain (filtered : list pystr) (seg : pystr) :
  Forall (fun c => is_chinese c = false) seg ->
  forall st : walk,
    mixed_segment filtered seg st =
      Walk (char_list st ++ chars seg) (char_list_whole st ++ chars seg)
           (j st) (printed st).
Proof.
  unfold mixed_segment, chars.
  induction 1 as [|c seg Hc _ IH]; intros st; simpl.
  - rewrite !app_nil_r. by destruct st.
  - rewrite IH. unfold mixed_char. rewrite Hc.
    destruct (c <? 256); simpl; by rewrite <- !app_assoc.
Qed.

(** A segment without east asian text is passed through, in both outputs
    alike, and leaves the cursor where it is. *)
Lemma walk_segment_plain (filtered : list pystr) (seg : pystr) (st : walk) :
  is_Some (utf8_len seg) ->
  pure_east_asian seg = false ->
  Forall (fun c => is_chinese c = false) seg ->
  char_list_whole st = char_list st ->
  walk_segment filtered seg st =
    Ok (Walk (pass_segment (char_list st) seg) (pass_segment (char_list st) seg)
             (j st) (printed st)).
Proof.
  intros [n Hn] Hpea Hseg Hw. unfold walk_segment, pass_segment.
  unfold pure_east_asian, literal in *. rewrite Hn in *.
  destruct (Nat.eqb_spec n (length seg)) as [->|Hne].
  - rewrite bool_decide_eq_true_2 by done. by rewrite literal_segment_eq.
  - rewrite bool_decide_eq_false_2 in * by congruence. simpl in Hpea.
    apply bool_decide_eq_false in Hpea.
    destruct (Nat.eqb_spec n (3 * length seg)) as [->|_]; [done |].
    rewrite andb_false_r, mixed_segment_plain by done. by rewrite Hw.
Qed.

Lemma walk_segments_plain (filtered : list pystr) (segs : list pystr) :
  Forall (fun seg => is_Some (utf8_len seg)) segs ->
  no_east_asian segs ->
  forall st : walk,
    char_list_whole st = char_list st ->
    walk_segments filtered segs st =
      Ok (Walk (foldl pass_segment (char_list st) segs)
               (foldl pass_segment (char_list st) segs) (j st) (printed st)).
Proof.
  intros Henc Hsegs. induction Hsegs as [|seg segs [Hpea Hseg] _ IH];
    intros st Hw; simpl.
  - rewrite <- Hw at 2. by destruct st.
  - inversion Henc; subst.
    rewrite walk_segment_plain by done. by rewrite IH.
Qed.

Lemma walk_segments_encodable (filtered : list pystr) (segs : list pystr) :
  forall st st' : walk,
    walk_segments filtered segs st = Ok st' ->
    Forall (fun seg => is_Some (utf8_len seg)) segs.
Proof.
  induction segs as [|seg segs IH]; simpl; intros st st' H; [constructor |].
  destruct (walk_segment filtered seg st) as [st1|] eqn:Hs; [| done].
  constructor; [| by eapply IH].
  unfold walk_segment in Hs. by destruct (utf8_len seg).
Qed.

(** A line without east asian text leaves its pass-through in both
    outputs. *)
Lemma convert_line_plain (line : pystr) (st : walk) :
  no_east_asian (cut (translate custom_trans line)) ->
  convert_line line = Ok st ->
  char_list st = pass_through (cut (translate custom_trans line)) /\
  char_list_whole st = pass_through (cut (translate custom_trans line)) /\
  j st = 0%nat.
Proof.
  unfold convert_line. intros Hsegs H.
  pose proof (walk_segments_encodable _ _ _ _ H) as Henc.
  rewrite walk_segments_plain in H by done. by inversion H.
Qed.

Lemma convert_line_plain_returns (line : pystr) :
  Forall (fun seg => is_Some (utf8_len seg))
         (cut (translate custom_trans line)) ->
  no_east_asian (cut (translate custom_trans line)) ->
  exists st, convert_line line = Ok st.
Proof.
  unfold convert_line. intros Henc Hsegs.
  rewrite walk_segments_plain by done. by eexists.
Qed.

(** What a call returns holds, line by line, one of the two outputs of the
    line. *)
Lemma convert_lookup (text_list : list pystr) (out : list (list pystr))
    (msgs : list diag) (i : nat) (line : pystr) :
  convert_char_to_pinyin text_list = Ok (out, msgs) ->
  text_list !! i = Some line ->
  exists st,
    convert_line line = Ok st /\
    (out !! i = Some (char_list st) \/ out !! i = Some (char_list_whole st)).
Proof.
  intros Hconv Hi.
  destruct (convert_inv _ _ _ Hconv)
    as (pre & last_ & sts & st_ & -> & Hpre & Hline).
  assert (Hall : Forall2 (fun l s => convert_line l = Ok s)
                   (pre ++ [last_]) (sts ++ [st_]))
    by (apply Forall2_app; [done | by constructor]).
  destruct (Forall2_lookup_l _ _ _ _ _ Hall Hi) as (st & Hst & Hok).
  exists st. split; [done |].
  rewrite (convert_snoc _ _ _ _ Hpre Hline) in Hconv. unfold reconcile in Hconv.
  cbn [last_line final_text_list final_text_list_whole stdout] in Hconv.
  destruct (bool_decide _); inversion Hconv; subst;
    rewrite list_lookup_fmap, Hst; auto.
Qed.

(** C6. A line without east asian text comes out as its pass-through,
    whichever of the two outputs the call returns: the characters of the
    normalized line, one per entry, with the boundary spaces of the
    literal-segment rule and nothing from a romanizer. *)
Theorem no_east_asian_pass_through (text_list : list pystr)
    (out : list (list pystr)) (msgs : list diag) (i : nat) (line : pystr) :
  convert_char_to_pinyin text_list = Ok (out, msgs) ->
  text_list !! i = Some line ->
  no_east_asian (cut (translate custom_trans line)) ->
  out !! i = Some (pass_through (cut (translate custom_trans line))).
Proof.
  intros Hconv Hi Hsegs.
  destruct (convert_lookup _ _ _ _ _ Hconv Hi) as (st & Hline & Hout).
  destruct (convert_line_plain _ _ Hsegs Hline) as (Hcl & Hwhole & _).
  rewrite Hcl, Hwhole in Hout. by destruct Hout.
Qed.

(** ** The boundary space of the literal branch *)

(** C5 (as amended). A literal segment of more than one byte, appended to an
    output whose last entry does not occur in the string of space, colon,
    apostrophe and double quote, is preceded by one boundary space in both
    outputs; and when the line made of go and the character U+5BA2 is cut
    into these two, a space stands between go and the token of the
    character in both outputs. *)
Theorem literal_boundary_space :
  (forall (filtered : list pystr) (seg : pystr) (st : walk) (prev : pystr),
     utf8_len seg = Some (length seg) ->
     (1 < length seg)%nat ->
     last (char_list st) = Some prev ->
     py_in prev boundary_chars = false ->
     walk_segment filtered seg st =
       Ok (Walk (char_list st ++ space :: chars seg)
                (char_list_whole st ++ space :: chars seg)
                (j st) (printed st)))
  /\ (cut (py "go" ++ [Demo.ke]) = [py "go"; [Demo.ke]] ->
      (polyphone = true -> lazy_pinyin [Demo.ke] <> []) ->
      exists st,
        convert_line (py "go" ++ [Demo.ke]) = Ok st /\
        char_list st =
          [[103]; [111]; space] ++
          (if polyphone then take 1 (lazy_pinyin [Demo.ke])
           else lazy_pinyin [Demo.ke]) /\
        char_list_whole st =
          [[103]; [111]; space] ++
          take 1 (line_stream (py "go" ++ [Demo.ke]))).
Proof.
  split.
  - intros filtered seg st prev Hlen Hlong Hlast Hin.
    unfold walk_segment. rewrite Hlen, Nat.eqb_refl.
    unfold literal_segment, boundary_needed. rewrite Hlast, Hin.
    destruct (Nat.ltb_spec 1 (length seg)) as [_|?]; [| lia].
    unfold extend_both, append_both, chars. simpl.
    by rewrite <- !app_assoc.
  - intros Hcut Hseg. unfold convert_line.
    assert (Ht : translate custom_trans (py "go" ++ [Demo.ke])
                 = py "go" ++ [Demo.ke]) by (by vm_compute).
    rewrite Ht, Hcut.
    generalize (line_stream (py "go" ++ [Demo.ke])) as filtered.
    generalize (debug (DbgTranslated (py "go" ++ [Demo.ke]))) as out.
    intros out filtered.
    generalize (out ++ debug (DbgFiltered filtered)) as out'. intros out'.
    change (py "go") with [103; 111].
    cbn [walk_segments]. unfold walk_segment at 1.
    change (utf8_len [103; 111]) with (Some 2%nat).
    cbn [length Nat.eqb]. unfold literal_segment, boundary_needed.
    cbn [char_list last extend_both fmap list_fmap app char_list_whole j
         printed].
    unfold walk_segment.
    change (utf8_len [Demo.ke]) with (Some 3%nat).
    cbn [length Nat.eqb Nat.mul Nat.add].
    destruct polyphone; cbn [andb].
    + destruct (lazy_pinyin [Demo.ke]) as [|tok rest] eqn:Hlp;
        [by destruct Hseg |].
      cbn [pronounceable_loop]. unfold pronounceable_char.
      change (is_chinese Demo.ke) with true.
      cbn [lookup list_lookup]. unfold take_token, append_both.
      cbn [char_list char_list_whole j printed app].
      destruct filtered as [|t ts]; cbn [lookup list_lookup];
        eexists; (split; [reflexivity |]); by rewrite ?take_0.
    + unfold mixed_segment. cbn [foldl]. unfold mixed_char.
      change (Demo.ke <? 256) with false.
      change (is_chinese Demo.ke) with true.
      unfold take_token, append_both.
      cbn [char_list char_list_whole j printed app].
      destruct filtered as [|t ts]; cbn [lookup list_lookup];
        eexists; (split; [reflexivity |]); by rewrite ?take_0.
Qed.

(** ** Running the engine on its own output *)

Lemma pass_segment_app (out : list pystr) (seg : pystr) :
  exists pad,
    pass_segment out seg = out ++ pad ++ chars seg /\
    (pad = [] \/ pad = [space]).
Proof.
  unfold pass_segment, literal_rule.
  destruct (literal seg); [destruct (boundary_needed _ _) |].
  - exists [space]. split; [by rewrite <- app_assoc | by right].
  - exists []. split; [done | by left].
  - exists []. split; [done | by left].
Qed.

Lemma concat_chars (seg : pystr) : concat (chars seg) = seg.
Proof.
  unfold chars. induction seg as [|c seg IH]; [done |].
  cbn. by rewrite IH.
Qed.

Lemma chars_single (seg : pystr) :
  Forall (fun e : pystr => length e = 1%nat) (chars seg).
Proof. unfold chars. apply Forall_fmap, Forall_forall. by intros. Qed.

(** The pass-through has one character per entry. *)
Lemma foldl_pass_segment_single (segs : list pystr) :
  forall out : list pystr,
    Forall (fun e : pystr => length e = 1%nat) out ->
    Forall (fun e : pystr => length e = 1%nat) (foldl pass_segment out segs).
Proof.
  induction segs as [|seg segs IH]; intros out Hout; simpl; [done |].
  apply IH. destruct (pass_segment_app out seg) as (pad & -> & Hpad).
  rewrite !Forall_app. split; [done |]. split; [| apply chars_single].
  destruct Hpad as [-> | ->]; [constructor | by repeat constructor].
Qed.

(** The pass-through spells the segments; only spaces are added. *)
Lemma foldl_pass_segment_spells (segs : list pystr) :
  forall out : list pystr,
    filter (fun c => c <> 32) (concat (foldl pass_segment out segs)) =
    filter (fun c => c <> 32) (concat out ++ concat segs).
Proof.
  induction segs as [|seg segs IH]; intros out; simpl.
  - by rewrite app_nil_r.
  - rewrite IH. destruct (pass_segment_app out seg) as (pad & -> & Hpad).
    rewrite !concat_app, concat_chars, !filter_app.
    destruct Hpad as [-> | ->]; simpl; by rewrite <- ?app_assoc.
Qed.

Lemma utf8_len_is_Some (seg : pystr) :
  Forall (fun c => is_Some (utf8_width c)) seg -> is_Some (utf8_len seg).
Proof.
  induction 1 as [|c seg [w Hw] _ [n Hn]]; simpl; [by eexists |].
  rewrite Hw, Hn. by eexists.
Qed.

Lemma segments_encodable (segs : list pystr) :
  Forall (fun c => is_Some (utf8_width c)) (concat segs) ->
  Forall (fun seg => is_Some (utf8_len seg)) segs.
Proof.
  induction segs as [|seg segs IH]; simpl; intros H; [constructor |].
  apply Forall_app in H as [Hseg Hrest].
  constructor; [by apply utf8_len_is_Some | by apply IH].
Qed.

(** A batch of one line returns one of the two outputs of the line. *)
Lemma convert_single (line : pystr) (st : walk) :
  convert_line line = Ok st ->
  exists msgs,
    convert_char_to_pinyin [line] =
      Ok ([if bool_decide (j st ≠ length (line_stream line))
           then char_list st else char_list_whole st], msgs).
Proof.
  intros Hline.
  pose proof (convert_snoc [] line [] st ltac:(constructor) Hline) as Hconv.
  cbn [app] in Hconv. rewrite Hconv. unfold reconcile.
  cbn [last_line final_text_list final_text_list_whole stdout fmap list_fmap
       app].
  destruct (bool_decide _); by eexists.
Qed.

(** C9 (as amended). Run again on a token sequence joined as text, when that
    text is cut into segments that spell it, can be encoded and has no east
    asian text, the engine returns the pass-through of the text: one
    character per entry, spelling the text up to spaces. So a sequence with
    an entry of more than one character, such as a romanized token, does
    not come back unchanged. *)
Theorem rerun_passes_through (out1 : list pystr) :
  concat (cut (translate custom_trans (concat out1))) =
    translate custom_trans (concat out1) ->
  Forall (fun c => is_Some (utf8_width c))
         (translate custom_trans (concat out1)) ->
  no_east_asian (cut (translate custom_trans (concat out1))) ->
  let text := translate custom_trans (concat out1) in
  exists msgs,
    convert_char_to_pinyin [concat out1] =
      Ok ([pass_through (cut text)], msgs) /\
    Forall (fun e : pystr => length e = 1%nat) (pass_through (cut text)) /\
    filter (fun c => c <> 32) (concat (pass_through (cut text))) =
      filter (fun c => c <> 32) text /\
    (Exists (fun e : pystr => length e <> 1%nat) out1 ->
     pass_through (cut text) <> out1).
Proof.
  intros Hcat Henc Hsegs text. fold text in Hcat, Henc, Hsegs.
  assert (Hsingle : Forall (fun e : pystr => length e = 1%nat)
                      (pass_through (cut text)))
    by (by apply foldl_pass_segment_single).
  rewrite <- Hcat in Henc. apply segments_encodable in Henc.
  destruct (convert_line_plain_returns _ Henc Hsegs) as [st Hline].
  destruct (convert_line_plain _ _ Hsegs Hline) as (Hcl & Hwhole & _).
  destruct (convert_single _ _ Hline) as [msgs Hconv].
  exists msgs. split; [| split; [done | split]].
  - rewrite Hconv, Hcl, Hwhole. by destruct (bool_decide _).
  - unfold pass_through. rewrite foldl_pass_segment_spells. simpl.
    by rewrite Hcat.
  - intros Hex Heq. rewrite Heq in Hsingle.
    apply Exists_exists in Hex as (e & He & Hlen).
    rewrite Forall_forall in Hsingle. by apply Hlen, Hsingle.
Qed.

(** ** When the call returns *)

Lemma pronounceable_loop_returns (seg_ filtered : list pystr) (cs : pystr) :
  forall (i : nat) (st : walk),
    (i + length cs <= length seg_)%nat ->
    exists st', pronounceable_loop seg_ filtered i cs st = Ok st'.
Proof.
  induction cs as [|c cs IH]; simpl; intros i st Hlen; [by eexists |].
  unfold pronounceable_char.
  destruct (lookup_lt_is_Some_2 seg_ i ltac:(lia)) as [tok ->].
  apply IH. lia.
Qed.

(** Segments that can be encoded and a context-free romanizer that gives at
    least one token per character are enough for a line to be processed. *)
Lemma convert_line_returns (line : pystr) :
  Forall (fun seg => is_Some (utf8_len seg))
         (cut (translate custom_trans line)) ->
  (forall seg, (length seg <= length (lazy_pinyin seg))%nat) ->
  exists st, convert_line line = Ok st.
Proof.
  unfold convert_line. intros Henc Hlp.
  generalize (Walk [] [] 0
    (debug (DbgTranslated (translate custom_trans line)) ++
     debug (DbgFiltered (line_stream line)))).
  induction Henc as [|seg segs [n Hn] _ IH]; intros st; simpl; [by eexists |].
  unfold walk_segment. rewrite Hn.
  destruct (n =? length seg)%nat; [apply IH |].
  destruct (polyphone && (n =? 3 * length seg)%nat); [| apply IH].
  destruct (pronounceable_loop_returns (lazy_pinyin seg)
              (line_stream line) seg 0 st (Hlp seg)) as [st' ->].
  apply IH.
Qed.


(** ** What is printed without the debug flag *)

Lemma debug_off (d : diag) : isDebug = false -> debug d = [].
Proof. intros H. unfold debug. by rewrite H. Qed.

Lemma take_token_printed (filtered : list pystr) (st : walk) :
  isDebug = false -> printed (take_token filtered st) = printed st.
Proof.
  intros H. unfold take_token. destruct (filtered !! j st); simpl; [| done].
  by rewrite debug_off, app_nil_r.
Qed.

Lemma pronounceable_char_printed (seg_ filtered : list pystr) (i : nat)
    (c : char) (st : walk) :
  isDebug = false ->
  match pronounceable_char seg_ filtered i c st with
  | Ok st' => printed st' = printed st
  | Raise _ out => out = printed st
  end.
Proof.
  intros H. unfold pronounceable_char.
  destruct (seg_ !! i), (is_chinese c); simpl; try done.
  by rewrite take_token_printed.
Qed.

Lemma pronounceable_loop_printed (seg_ filtered : list pystr) (cs : pystr) :
  isDebug = false ->
  forall (i : nat) (st : walk),
    match pronounceable_loop seg_ filtered i cs st with
    | Ok st' => printed st' = printed st
    | Raise _ out => out = printed st
    end.
Proof.
  intros H. induction cs as [|c cs IH]; intros i st; simpl; [done |].
  pose proof (pronounceable_char_printed seg_ filtered i c st H) as Hc.
  destruct (pronounceable_char seg_ filtered i c st) as [st1|e out]; [| done].
  specialize (IH (S i) st1).
  destruct (pronounceable_loop seg_ filtered (S i) cs st1); congruence.
Qed.

Lemma mixed_char_printed (filtered : list pystr) (st : walk) (c : char) :
  isDebug = false -> printed (mixed_char filtered st c) = printed st.
Proof.
  intros H. unfold mixed_char.
  destruct (c <? 256), (is_chinese c); simpl; try done.
  by rewrite take_token_printed.
Qed.

Lemma mixed_segment_printed (filtered : list pystr) (seg : pystr) :
  isDebug = false ->
  forall st : walk, printed (mixed_segment filtered seg st) = printed st.
Proof.
  intros H. unfold mixed_segment.
  induction seg as [|c seg IH]; intros st; simpl; [done |].
  by rewrite IH, mixed_char_printed.
Qed.

Lemma walk_segment_printed (filtered : list pystr) (seg : pystr) (st : walk) :
  isDebug = false ->
  match walk_segment filtered seg st with
  | Ok st' => printed st' = printed st
  | Raise _ out => out = printed st
  end.
Proof.
  intros H. unfold walk_segment.
  destruct (utf8_len seg) as [n|]; [| done].
  destruct (n =? length seg)%nat.
  { unfold literal_segment. by destruct (boundary_needed _ _). }
  destruct (polyphone && (n =? 3 * length seg)%nat).
  - by apply pronounceable_loop_printed.
  - by apply mixed_segment_printed.
Qed.

Lemma walk_segments_printed (filtered : list pystr) (segs : list pystr) :
  isDebug = false ->
  forall st : walk,
    match walk_segments filtered segs st with
    | Ok st' => printed st' = printed st
    | Raise _ out => out = printed st
    end.
Proof.
  intros H. induction segs as [|seg segs IH]; intros st; simpl; [done |].
  pose proof (walk_segment_printed filtered seg st H) as Hseg.
  destruct (walk_segment filtered seg st) as [st1|e out]; [| done].
  specialize (IH st1).
  destruct (walk_segments filtered segs st1); congruence.
Qed.

Lemma convert_line_printed (line : pystr) :
  isDebug = false ->
  match convert_line line with
  | Ok st => printed st = []
  | Raise _ out => out = []
  end.
Proof.
  intros H. unfold convert_line.
  match goal with
  | |- context [walk_segments ?f ?segs ?st] =>
      pose proof (walk_segments_printed f segs H st) as Hw;
      destruct (walk_segments f segs st)
  end; simpl in Hw; by rewrite !debug_off in Hw.
Qed.

Lemma lines_loop_printed (lines : list pystr) :
  isDebug = false ->
  forall b : batch,
    stdout b = [] ->
    match lines_loop lines b with
    | Ok b' => stdout b' = []
    | Raise _ out => out = []
    end.
Proof.
  intros H. induction lines as [|line lines IH]; intros b Hb; simpl; [done |].
  pose proof (convert_line_printed line H) as Hline.
  destruct (convert_line line) as [st|e out].
  - apply IH. simpl. by rewrite Hb, Hline.
  - by rewrite Hb, Hline.
Qed.

Lemma convert_printed_off (text_list : list pystr) :
  isDebug = false ->
  match convert_char_to_pinyin text_list with
  | Ok (_, msgs) =>
      msgs = [] \/
      exists cursor new : nat,
        cursor <> new /\ msgs = [LengthDifferent cursor new]
  | Raise _ out => out = []
  end.
Proof.
  intros H. unfold convert_char_to_pinyin.
  pose proof (lines_loop_printed text_list H (Batch [] [] None [])
                eq_refl) as Hloop.
  destruct (lines_loop text_list (Batch [] [] None [])) as [b|e out]; [| done].
  unfold reconcile. destruct (last_line b) as [[cursor filtered]|]; [| done].
  rewrite Hloop. case_bool_decide.
  - right. by exists cursor, (length filtered).
  - left. by rewrite !debug_off.
Qed.

(** ** What the call raises *)

Lemma pronounceable_loop_raises (seg_ filtered : list pystr) (cs : pystr) :
  forall (i : nat) (st : walk) (e : exn) (out : list diag),
    pronounceable_loop seg_ filtered i cs st = Raise e out ->
    e = IndexError /\ (length seg_ < i + length cs)%nat.
Proof.
  induction cs as [|c cs IH]; simpl; intros i st e out H; [done |].
  unfold pronounceable_char in H. destruct (seg_ !! i) as [tok|] eqn:Hl.
  - apply IH in H as [-> Hlt]. split; [done | lia].
  - injection H as <- _. apply lookup_ge_None in Hl. split; [done | lia].
Qed.

Lemma walk_segment_raises (filtered : list pystr) (seg : pystr) (st : walk)
    (e : exn) (out : list diag) :
  walk_segment filtered seg st = Raise e out ->
  (e = UnicodeEncodeError /\ utf8_len seg = None) \/
  (e = IndexError /\ polyphone = true /\
   utf8_len seg = Some (3 * length seg)%nat /\
   (length (lazy_pinyin seg) < length seg)%nat).
Proof.
  unfold walk_segment. destruct (utf8_len seg) as [n|].
  2: { intros [= <- _]. by left. }
  destruct (n =? length seg)%nat; [done |].
  destruct polyphone eqn:Hp; cbn [andb]; [| done].
  destruct (Nat.eqb_spec n (3 * length seg)) as [-> |]; [| done].
  intros [-> Hlt]%pronounceable_loop_raises. right. simpl in Hlt. done.
Qed.

Lemma walk_segments_raises (filtered : list pystr) (segs : list pystr) :
  forall (st : walk) (e : exn) (out : list diag),
    walk_segments filtered segs st = Raise e out ->
    exists seg,
      seg ∈ segs /\
      ((e = UnicodeEncodeError /\ utf8_len seg = None) \/
       (e = IndexError /\ polyphone = true /\
        utf8_len seg = Some (3 * length seg)%nat /\
        (length (lazy_pinyin seg) < length seg)%nat)).
Proof.
  induction segs as [|seg segs IH]; simpl; intros st e out H; [done |].
  destruct (walk_segment filtered seg st) as [st1|e1 out1] eqn:Hseg.
  - destruct (IH _ _ _ H) as (seg' & Hin & Hbad).
    exists seg'. split; [by apply list_elem_of_further | done].
  - injection H as <- <-. exists seg.
    split; [by apply list_elem_of_here | by eapply walk_segment_raises].
Qed.

Lemma lines_loop_raises (lines : list pystr) :
  forall (b : batch) (e : exn) (out : list diag),
    lines_loop lines b = Raise e out ->
    exists line out',
      line ∈ lines /\ convert_line line = Raise e out'.
Proof.
  induction lines as [|line lines IH]; simpl; intros b e out H; [done |].
  destruct (convert_line line) as [st|e1 out1] eqn:Hline.
  - destruct (IH _ _ _ H) as (line' & out' & Hin & Hbad).
    exists line', out'. split; [by apply list_elem_of_further | done].
  - injection H as <- _. exists line, out1.
    split; [by apply list_elem_of_here | done].
Qed.

Lemma lines_loop_last_line (lines : list pystr) (b : batch) :
  lines_loop lines (Batch [] [] None []) = Ok b ->
  last_line b = None ->
  lines = [].
Proof.
  intros (sts & Hsts & ->)%lines_loop_inv. simpl.
  destruct Hsts as [|line st lines sts _ _]; [done |].
  rewrite last_zip_cons. by destruct (last (zip lines sts)) as [[? ?]|].
Qed.

(** X18. An exception of [convert_char_to_pinyin] is [UnboundLocalError]
    for the empty batch; otherwise it comes from a segment of some line:
    [UnicodeEncodeError] from one that cannot be encoded, or [IndexError]
    from one of three bytes per character for which, with [polyphone],
    the context-free romanizer gives fewer items than characters. *)
Theorem convert_raises (text_list : list pystr) (e : exn) (out : list diag) :
  convert_char_to_pinyin text_list = Raise e out ->
  (e = UnboundLocalError /\ text_list = []) \/
  exists line seg,
    line ∈ text_list /\ seg ∈ cut (translate custom_trans line) /\
    ((e = UnicodeEncodeError /\ utf8_len seg = None) \/
     (e = IndexError /\ polyphone = true /\
      utf8_len seg = Some (3 * length seg)%nat /\
      (length (lazy_pinyin seg) < length seg)%nat)).
Proof.
  unfold convert_char_to_pinyin. intros H.
  destruct (lines_loop text_list (Batch [] [] None [])) as [b|e1 out1] eqn:Hl.
  - left. unfold reconcile in H.
    destruct (last_line b) as [[cursor filtered]|] eqn:Hlast.
    + by destruct (bool_decide _).
    + injection H as <- _. split; [done |].
      by apply (lines_loop_last_line _ b).
  - right. injection H as <- _.
    apply lines_loop_raises in Hl as (line & out' & Hin & Hline).
    unfold convert_line in Hline.
    apply walk_segments_raises in Hline as (seg & Hseg & Hbad).
    by exists line, seg.
Qed.

(** ** Batches that are converted *)

Lemma walk_segment_enough (filtered : list pystr) (seg : pystr) (st : walk) :
  is_Some (utf8_len seg) ->
  (polyphone = true ->
   utf8_len seg = Some (3 * length seg)%nat ->
   (length seg <= length (lazy_pinyin seg))%nat) ->
  exists st', walk_segment filtered seg st = Ok st'.
Proof.
  intros [n Hn] Hlp. unfold walk_segment. rewrite Hn.
  destruct (n =? length seg)%nat; [by eexists |].
  destruct polyphone eqn:Hp; cbn [andb]; [| by eexists].
  destruct (Nat.eqb_spec n (3 * length seg)) as [-> |]; [| by eexists].
  apply pronounceable_loop_returns. simpl. by apply Hlp.
Qed.

Lemma walk_segments_enough (filtered : list pystr) (segs : list pystr) :
  Forall (fun seg =>
            is_Some (utf8_len seg) /\
            (polyphone = true ->
             utf8_len seg = Some (3 * length seg)%nat ->
             (length seg <= length (lazy_pinyin seg))%nat)) segs ->
  forall st : walk, exists st', walk_segments filtered segs st = Ok st'.
Proof.
  induction 1 as [|seg segs [Henc Hlp] _ IH]; intros st; simpl;
    [by eexists |].
  destruct (walk_segment_enough filtered seg st Henc Hlp) as [st1 ->].
  apply IH.
Qed.

Lemma lines_loop_enough (lines : list pystr) :
  Forall (fun line => exists st, convert_line line = Ok st) lines ->
  exists sts, Forall2 (fun line st => convert_line line = Ok st) lines sts.
Proof.
  induction 1 as [|line lines [st Hst] _ [sts Hsts]].
  - exists []. constructor.
  - exists (st :: sts). by constructor.
Qed.

(** X19. A batch that is not empty is converted, one sequence per line,
    when every segment of every line can be encoded and, with [polyphone],
    the context-free romanizer gives at least one item per character on
    the segments of three bytes per character. *)
Theorem convert_returns (text_list : list pystr) :
  text_list <> [] ->
  Forall (fun line =>
            Forall (fun seg =>
                      is_Some (utf8_len seg) /\
                      (polyphone = true ->
                       utf8_len seg = Some (3 * length seg)%nat ->
                       (length seg <= length (lazy_pinyin seg))%nat))
                   (cut (translate custom_trans line))) text_list ->
  exists out msgs,
    convert_char_to_pinyin text_list = Ok (out, msgs) /\
    length out = length text_list.
Proof.
  intros Hne Hall.
  assert (Hlines : Forall (fun line => exists st, convert_line line = Ok st)
                          text_list).
  { eapply Forall_impl; [done |]. intros line Hsegs. simpl in Hsegs.
    unfold convert_line. by apply walk_segments_enough. }
  destruct text_list as [|line pre _] using rev_ind; [done |].
  apply Forall_app in Hlines as [Hpre Hline].
  apply Forall_singleton in Hline as [st Hst].
  apply lines_loop_enough in Hpre as [sts Hsts].
  rewrite (convert_snoc pre line sts st Hsts Hst). unfold reconcile. simpl.
  assert (Hlen : length (sts ++ [st]) = length (pre ++ [line])).
  { rewrite !length_app. simpl. by rewrite (Forall2_length _ _ _ Hsts). }
  destruct (bool_decide _); do 2 eexists;
    (split; [reflexivity |]); by rewrite length_fmap.
Qed.

(** ** The lengths of the two outputs *)

Lemma chinese_step_deficit (filtered toks : list pystr) (st : walk) :
  length toks = 1%nat ->
  (length (char_list st) + j st `min` length filtered =
   length (char_list_whole st) + j st)%nat ->
  let st' :=
    take_token filtered
      (Walk ((char_list st ++ [space]) ++ toks) (char_list_whole st ++ [space])
            (j st) (printed st)) in
  (length (char_list st') + j st' `min` length filtered =
   length (char_list_whole st') + j st')%nat.
Proof.
  intros Htoks Hinv. unfold take_token. cbn [j].
  destruct (filtered !! j st) as [tok|] eqn:Hl;
    cbn [char_list char_list_whole j]; rewrite !length_app, Htoks;
    cbn [length].
  - apply lookup_lt_Some in Hl. lia.
  - apply lookup_ge_None in Hl. lia.
Qed.

Lemma pronounceable_char_deficit (seg_ filtered : list pystr) (i : nat)
    (c : char) (st st' : walk) :
  pronounceable_char seg_ filtered i c st = Ok st' ->
  (length (char_list st) + j st `min` length filtered =
   length (char_list_whole st) + j st)%nat ->
  (length (char_list st') + j st' `min` length filtered =
   length (char_list_whole st') + j st')%nat.
Proof.
  unfold pronounceable_char. intros H Hinv.
  destruct (seg_ !! i) as [tok|]; [| done]. injection H as <-.
  destruct (is_chinese c).
  - by apply (chinese_step_deficit filtered [tok] st).
  - simpl. rewrite !length_app. simpl. lia.
Qed.

Lemma pronounceable_loop_deficit (seg_ filtered : list pystr) (cs : pystr) :
  forall (i : nat) (st st' : walk),
    pronounceable_loop seg_ filtered i cs st = Ok st' ->
    (length (char_list st) + j st `min` length filtered =
     length (char_list_whole st) + j st)%nat ->
    (length (char_list st') + j st' `min` length filtered =
     length (char_list_whole st') + j st')%nat.
Proof.
  induction cs as [|c cs IH]; simpl; intros i st st' H Hinv.
  - by injection H as <-.
  - destruct (pronounceable_char seg_ filtered i c st) as [st1|] eqn:Hc;
      [| done].
    eapply IH; [done |]. by eapply pronounceable_char_deficit.
Qed.

Lemma mixed_char_deficit (filtered : list pystr) (st : walk) (c : char) :
  (is_chinese c = true -> length (lazy_pinyin [c]) = 1%nat) ->
  (length (char_list st) + j st `min` length filtered =
   length (char_list_whole st) + j st)%nat ->
  (length (char_list (mixed_char filtered st c)) +
   j (mixed_char filtered st c) `min` length filtered =
   length (char_list_whole (mixed_char filtered st c)) +
   j (mixed_char filtered st c))%nat.
Proof.
  intros Hlp Hinv. unfold mixed_char.
  destruct (c <? 256); [simpl; rewrite !length_app; simpl; lia |].
  destruct (is_chinese c).
  - by apply (chinese_step_deficit filtered (lazy_pinyin [c]) st); [apply Hlp |].
  - simpl. rewrite !length_app. simpl. lia.
Qed.

Lemma mixed_segment_deficit (filtered : list pystr) (seg : pystr) :
  (forall c, is_chinese c = true -> length (lazy_pinyin [c]) = 1%nat) ->
  forall st : walk,
    (length (char_list st) + j st `min` length filtered =
     length (char_list_whole st) + j st)%nat ->
    (length (char_list (mixed_segment filtered seg st)) +
     j (mixed_segment filtered seg st) `min` length filtered =
     length (char_list_whole (mixed_segment filtered seg st)) +
     j (mixed_segment filtered seg st))%nat.
Proof.
  intros Hlp. unfold mixed_segment.
  induction seg as [|c seg IH]; intros st Hinv; simpl; [done |].
  apply IH. by apply mixed_char_deficit; [apply Hlp |].
Qed.

Lemma walk_segment_deficit (filtered : list pystr) (seg : pystr)
    (st st' : walk) :
  (forall c, is_chinese c = true -> length (lazy_pinyin [c]) = 1%nat) ->
  walk_segment filtered seg st = Ok st' ->
  (length (char_list st) + j st `min` length filtered =
   length (char_list_whole st) + j st)%nat ->
  (length (char_list st') + j st' `min` length filtered =
   length (char_list_whole st') + j st')%nat.
Proof.
  intros Hlp. unfold walk_segment.
  destruct (utf8_len seg) as [n|]; [| done].
  destruct (n =? length seg)%nat.
  { intros [= <-] Hinv. unfold literal_segment.
    destruct (boundary_needed _ _); simpl; rewrite !length_app; simpl; lia. }
  destruct (polyphone && (n =? 3 * length seg)%nat).
  - apply pronounceable_loop_deficit.
  - intros [= <-]. by apply mixed_segment_deficit.
Qed.

Lemma walk_segments_deficit (filtered : list pystr) (segs : list pystr) :
  (forall c, is_chinese c = true -> length (lazy_pinyin [c]) = 1%nat) ->
  forall st st' : walk,
    walk_segments filtered segs st = Ok st' ->
    (length (char_list st) + j st `min` length filtered =
     length (char_list_whole st) + j st)%nat ->
    (length (char_list st') + j st' `min` length filtered =
     length (char_list_whole st') + j st')%nat.
Proof.
  intros Hlp. induction segs as [|seg segs IH]; simpl; intros st st' H Hinv.
  - by injection H as <-.
  - destruct (walk_segment filtered seg st) as [st1|] eqn:Hseg; [| done].
    eapply IH; [done |]. by eapply walk_segment_deficit.
Qed.

(** X20. When the context-free romanizer gives one item for a single
    Chinese character, the merged sequence of a line is shorter than the
    context-free one by the number of Chinese characters met after the
    stream had run out, and as long when the cursor stays within the
    stream. *)
Theorem merged_length_deficit (line : pystr) (st : walk) :
  (forall c, is_chinese c = true -> length (lazy_pinyin [c]) = 1%nat) ->
  convert_line line = Ok st ->
  length (char_list st) =
    (length (char_list_whole st) + (j st - length (line_stream line)))%nat.
Proof.
  intros Hlp Hline. unfold convert_line in Hline.
  pose proof (walk_segments_deficit _ _ Hlp _ _ Hline) as Hinv.
  simpl in Hinv. specialize (Hinv eq_refl). lia.
Qed.

(** ** A segment of characters of the Chinese block *)

Lemma chinese_utf8_len (seg : pystr) :
  Forall (fun c => is_chinese c = true) seg ->
  utf8_len seg = Some (3 * length seg)%nat.
Proof.
  induction 1 as [|c seg Hc _ IH]; [done |]. cbn [utf8_len].
  rewrite (is_chinese_width c Hc), IH. f_equal. cbn [length]. lia.
Qed.

Lemma is_chinese_not_latin (c : char) :
  is_chinese c = true -> (c <? 256) = false.
Proof. unfold is_chinese. intros H. cases_N. Qed.

Lemma take_token_whole (filtered : list pystr) (st : walk) :
  char_list_whole (take_token filtered st) =
    char_list_whole st ++ option_list (filtered !! j st).
Proof.
  unfold take_token. destruct (filtered !! j st); simpl; [done |].
  by rewrite app_nil_r.
Qed.

Lemma pronounceable_loop_chinese (seg_ filtered : list pystr) (cs : pystr) :
  Forall (fun c => is_chinese c = true) cs ->
  forall (i : nat) (st : walk),
    (i + length cs <= length seg_)%nat ->
    exists st',
      pronounceable_loop seg_ filtered i cs st = Ok st' /\
      char_list st' =
        char_list st ++
        concat ((fun tok => [space; tok]) <$> take (length cs) (drop i seg_)) /\
      char_list_whole st' =
        char_list_whole st ++
        concat ((fun k => space :: option_list (filtered !! k))
                  <$> seq (j st) (length cs)) /\
      j st' = (j st + length cs)%nat.
Proof.
  induction 1 as [|c cs Hc _ IH]; intros i st Hlen.
  - exists st. simpl. by rewrite !app_nil_r, Nat.add_0_r.
  - cbn [length] in Hlen. cbn [pronounceable_loop].
    unfold pronounceable_char. rewrite Hc.
    destruct (lookup_lt_is_Some_2 seg_ i ltac:(lia)) as [tok Htok].
    rewrite Htok.
    match goal with
    | |- context [pronounceable_loop _ _ _ _ ?s] =>
        destruct (IH (S i) s ltac:(lia)) as (st' & -> & Hcl & Hwh & Hj)
    end.
    exists st'. split; [done |].
    rewrite take_token_char_list in Hcl.
    rewrite take_token_whole, take_token_j in Hwh.
    rewrite take_token_j in Hj.
    cbn [char_list char_list_whole j append_both] in Hcl, Hwh, Hj.
    rewrite Hcl, Hwh, Hj, (drop_S _ _ _ Htok).
    cbn [length seq take]. rewrite !fmap_cons. cbn [concat].
    split; [| split; [| lia]]; rewrite <- !app_assoc; done.
Qed.

Lemma mixed_segment_chinese (filtered : list pystr) (seg : pystr) :
  Forall (fun c => is_chinese c = true) seg ->
  forall st : walk,
    char_list (mixed_segment filtered seg st) =
      char_list st ++ concat ((fun c => space :: lazy_pinyin [c]) <$> seg) /\
    char_list_whole (mixed_segment filtered seg st) =
      char_list_whole st ++
      concat ((fun k => space :: option_list (filtered !! k))
                <$> seq (j st) (length seg)) /\
    j (mixed_segment filtered seg st) = (j st + length seg)%nat.
Proof.
  unfold mixed_segment.
  induction 1 as [|c seg Hc _ IH]; intros st.
  - simpl. by rewrite !app_nil_r, Nat.add_0_r.
  - cbn [foldl]. unfold mixed_char at 2 4 6.
    rewrite (is_chinese_not_latin c Hc), Hc.
    match goal with
    | |- context [foldl _ ?s seg] => destruct (IH s) as (Hcl & Hwh & Hj)
    end.
    rewrite take_token_char_list in Hcl.
    rewrite take_token_whole, take_token_j in Hwh.
    rewrite take_token_j in Hj.
    cbn [char_list char_list_whole j append_both] in Hcl, Hwh, Hj |- *.
    rewrite Hcl, Hwh, Hj.
    cbn [length seq]. rewrite !fmap_cons. cbn [concat].
    split; [| split; [| lia]]; rewrite <- !app_assoc; done.
Qed.

(** X21. A segment made of characters of the Chinese block adds to the
    merged sequence, for each character, a space and then the token under
    the cursor if the stream still has one; the cursor moves by the length
    of the segment. The context-free sequence gets a space and an item of
    the context-free romanizer per character. *)
Theorem chinese_segment_interleaves (filtered : list pystr) (seg : pystr)
    (st : walk) :
  Forall (fun c => is_chinese c = true) seg ->
  (polyphone = true -> (length seg <= length (lazy_pinyin seg))%nat) ->
  exists st',
    walk_segment filtered seg st = Ok st' /\
    char_list st' =
      char_list st ++
      (if polyphone
       then concat ((fun tok => [space; tok])
                      <$> take (length seg) (lazy_pinyin seg))
       else concat ((fun c => space :: lazy_pinyin [c]) <$> seg)) /\
    char_list_whole st' =
      char_list_whole st ++
      concat ((fun k => space :: option_list (filtered !! k))
                <$> seq (j st) (length seg)) /\
    j st' = (j st + length seg)%nat.
Proof.
  intros Hseg Hlp. unfold walk_segment.
  rewrite (chinese_utf8_len seg Hseg).
  destruct seg as [|c seg].
  { simpl. unfold literal_segment, boundary_needed.
    eexists. split; [reflexivity |].
    destruct (last (char_list st)), polyphone; simpl;
      by rewrite !app_nil_r, Nat.add_0_r. }
  destruct (Nat.eqb_spec (3 * length (c :: seg)) (length (c :: seg)))
    as [Heq|_]; [cbn [length] in Heq; lia |].
  rewrite Nat.eqb_refl, andb_true_r.
  destruct polyphone eqn:Hp.
  - destruct (pronounceable_loop_chinese (lazy_pinyin (c :: seg)) filtered
                (c :: seg) Hseg 0 st ltac:(simpl; by apply Hlp))
      as (st' & Hloop & Hcl & Hwh & Hj).
    exists st'. by rewrite drop_0 in Hcl.
  - eexists. split; [reflexivity |]. by apply mixed_segment_chinese.
Qed.
End Engine.


(** ** The repetition filter *)

Lemma count_pattern_lookup (m : gmap pystr Z) (x p : pystr) :
  count_pattern m x !! p =
  if decide (x = p) then Some (default 0 (m !! x) + 1)%Z else m !! p.
Proof. unfold count_pattern. apply lookup_insert. Qed.

Lemma occurrences_snoc (p x : pystr) (ps : list pystr) :
  occurrences p (ps ++ [x]) =
  (occurrences p ps + (if decide (x = p) then 1 else 0))%Z.
Proof.
  unfold occurrences. rewrite filter_app, length_app.
  rewrite filter_cons, filter_nil. case_decide; simpl; lia.
Qed.

Lemma occurrences_pos (p : pystr) (ps : list pystr) :
  p ∈ ps -> (0 < occurrences p ps)%Z.
Proof.
  intros Hin. unfold occurrences.
  assert (Hf : p ∈ filter (fun q => q = p) ps)
    by (apply list_elem_of_filter; auto).
  destruct (filter (fun q => q = p) ps); [by apply elem_of_nil in Hf | simpl; lia].
Qed.

(** After the first loop the dictionary holds, for each window seen, the
    number of times it was seen, and nothing else. *)
Lemma foldl_count_pattern (ps : list pystr) (p : pystr) :
  foldl count_pattern ∅ ps !! p =
  if decide (p ∈ ps) then Some (occurrences p ps) else None.
Proof.
  induction ps as [|x ps IH] using rev_ind.
  - cbn [foldl]. rewrite lookup_empty.
    destruct (decide (p ∈ [])) as [H|H]; [by apply elem_of_nil in H | done].
  - rewrite foldl_app. cbn [foldl]. rewrite count_pattern_lookup, occurrences_snoc.
    destruct (decide (x = p)) as [->|Hne].
    + destruct (decide (p ∈ ps ++ [p])) as [_|Hn];
        [| exfalso; apply Hn, elem_of_app; right; left].
      rewrite IH. destruct (decide (p ∈ ps)) as [Hin|Hin]; simpl; [done |].
      f_equal. unfold occurrences.
      destruct (filter (fun q => q = p) ps) as [|q qs] eqn:Hf; [simpl; lia |].
      assert (Hq : q ∈ filter (fun q => q = p) ps) by (rewrite Hf; left).
      apply list_elem_of_filter in Hq as [-> Hq]. done.
    + rewrite IH. destruct (decide (p ∈ ps)) as [Hin|Hin].
      * destruct (decide (p ∈ ps ++ [x])) as [_|Hn];
          [| exfalso; apply Hn, elem_of_app; by left].
        f_equal. lia.
      * destruct (decide (p ∈ ps ++ [x])) as [Hn|_]; [| done].
        apply elem_of_app in Hn as [Hn|Hn]; [done |].
        apply list_elem_of_singleton in Hn. by subst.
Qed.

Lemma py_slice_window (text : pystr) (i n : nat) :
  (i + n <= length text)%nat ->
  py_slice text (Z.of_nat i) (Z.of_nat i + Z.of_nat n) = take n (drop i text).
Proof.
  intros Hle. unfold py_slice, slice_index.
  destruct (Z.ltb_spec (Z.of_nat i) 0); [lia |].
  destruct (Z.ltb_spec (Z.of_nat i + Z.of_nat n) 0); [lia |].
  rewrite !Z.min_l by lia.
  f_equal; [lia | f_equal; lia].
Qed.

(** The windows the loop slices are the overlapping substrings of the
    requested size. *)
Lemma pattern_counts_windows (text : pystr) (n : nat) :
  pattern_counts text (Z.of_nat n) = foldl count_pattern ∅ (windows text n).
Proof.
  unfold pattern_counts, windows, py_range.
  replace (Z.to_nat (Z.of_nat (length text) - Z.of_nat n + 1))
    with (length text + 1 - n)%nat by lia.
  rewrite foldl_fmap.
  assert (Hgen : forall (l : list nat) (m : gmap pystr Z),
    Forall (fun i => (i + n <= length text)%nat) l ->
    foldl (fun pattern_count i =>
             count_pattern pattern_count
               (py_slice text (Z.of_nat i) (Z.of_nat i + Z.of_nat n))) m l =
    foldl count_pattern m ((fun i => take n (drop i text)) <$> l)).
  { induction l as [|i l IH]; intros m Hl; [done |].
    inversion Hl; subst. simpl. rewrite py_slice_window by done. by apply IH. }
  apply Hgen. apply Forall_forall. intros i Hi.
  apply elem_of_seq in Hi. lia.
Qed.

(** C8. [repetition_found] counts every overlapping window of the given
    size and answers true exactly when some window occurs more often than
    the tolerance: true for ababab with size 2 and tolerance 2, false for
    abcdef. *)
Theorem repetition_found_spec :
  (forall (text : pystr) (n : nat) (tolerance : Z),
     repetition_found text (Z.of_nat n) tolerance = true <->
     exists p, p ∈ windows text n /\
               (tolerance < occurrences p (windows text n))%Z)
  /\ repetition_found (py "ababab") 2 2 = true
  /\ occurrences (py "ab") (windows (py "ababab") 2) = 3%Z
  /\ repetition_found (py "abcdef") 2 2 = false.
Proof.
  split; [| by vm_compute].
  intros text n tolerance. unfold repetition_found.
  rewrite pattern_counts_windows, existsb_exists. split.
  - intros [[p c] [Hin Hlt]]. apply list_elem_of_In in Hin.
    apply elem_of_map_to_list in Hin.
    rewrite foldl_count_pattern in Hin. case_decide as Hp; [| done].
    inversion Hin; subst. exists p. split; [done | lia].
  - intros [p [Hp Hlt]]. exists (p, occurrences p (windows text n)). split.
    + apply list_elem_of_In, elem_of_map_to_list.
      rewrite foldl_count_pattern. by rewrite decide_True.
    + apply Z.ltb_lt. lia.
Qed.

(** ** The filter on the sentence-level stream *)

Lemma not_letter_tone_digit (c : char) :
  is_tone_digit c = true -> is_ascii_letter c = false.
Proof. unfold is_tone_digit, is_ascii_letter. cases_N. Qed.

Lemma after_letters_split (s : pystr) :
  exists letters,
    s = letters ++ after_letters s /\
    Forall (fun c => is_ascii_letter c = true) letters.
Proof.
  induction s as [|c s [letters [Hs Hl]]]; [by exists [] |].
  simpl. destruct (is_ascii_letter c) eqn:Hc.
  - exists (c :: letters). split; [simpl; congruence | by constructor].
  - by exists [].
Qed.

Lemma after_letters_app (letters rest : pystr) :
  Forall (fun c => is_ascii_letter c = true) letters ->
  match rest with [] => True | c :: _ => is_ascii_letter c = false end ->
  after_letters (letters ++ rest) = rest.
Proof.
  intros Hl Hr. induction Hl as [|c letters Hc _ IH]; simpl.
  - destruct rest as [|c rest]; [done |]. simpl. by rewrite Hr.
  - by rewrite Hc.
Qed.

Lemma at_dollar_spec (s : pystr) : at_dollar s = true <-> single_newline s.
Proof.
  unfold single_newline. split.
  - destruct s as [|c [|c' s']]; [by left | | ].
    + intros H. right. f_equal. destruct c as [|p]; [done |].
      repeat (match goal with q : positive |- _ => destruct q end;
              simpl in H; try done).
    + intros H. exfalso. destruct c as [|p]; [done |].
      repeat (match goal with q : positive |- _ => destruct q end;
              simpl in H; try done).
  - by intros [->| ->].
Qed.

Lemma tone_then_dollar_spec (s : pystr) :
  tone_then_dollar s = true <->
  exists tone nl, s = tone ++ nl /\ single_tone tone /\ single_newline nl.
Proof.
  unfold tone_then_dollar, single_tone. split.
  - intros H. apply orb_true_iff in H as [H|H].
    + exists [], s. split; [done |]. split; [by left |].
      by apply at_dollar_spec.
    + destruct s as [|c s]; [done |].
      apply andb_true_iff in H as [Hd H]. exists [c], s.
      split; [done |]. split; [right; by exists c |].
      by apply at_dollar_spec.
  - intros (tone & nl & -> & Ht & Hn). apply at_dollar_spec in Hn.
    apply orb_true_iff. destruct Ht as [->|[d [-> Hd]]].
    + by left.
    + right. simpl. by rewrite Hd.
Qed.

(** What [TONE3_STYLE_PATTERN] accepts: letters, at most one tone digit, and
    at most one newline that ends the string. *)
Lemma TONE3_STYLE_PATTERN_spec (s : pystr) :
  TONE3_STYLE_PATTERN s = true <->
  exists letters tone nl,
    s = letters ++ tone ++ nl /\ letters <> [] /\
    Forall (fun c => is_ascii_letter c = true) letters /\
    single_tone tone /\ single_newline nl.
Proof.
  split.
  - destruct s as [|c s]; [done |]. simpl. intros H.
    apply andb_true_iff in H as [Hc H].
    apply tone_then_dollar_spec in H as (tone & nl & Hs & Ht & Hn).
    destruct (after_letters_split s) as [letters [Hsplit Hl]].
    exists (c :: letters), tone, nl. repeat split; try done.
    + simpl. rewrite <- Hs. congruence.
    + by constructor.
  - intros (letters & tone & nl & -> & Hne & Hl & Ht & Hn).
    destruct letters as [|c letters]; [done |].
    inversion Hl as [|? ? Hc Hl']; subst. simpl. rewrite Hc. simpl.
    rewrite after_letters_app; [| done |].
    + apply tone_then_dollar_spec. by exists tone, nl.
    + destruct Ht as [->|[d [-> Hd]]]; simpl.
      * by destruct Hn as [->| ->].
      * by apply not_letter_tone_digit.
Qed.

(** The filter neither reorders nor invents entries. *)
Lemma filtered_sentence_raw_sublist (sentence : list pyobj) :
  PyStr <$> filtered_sentence_raw sentence `sublist_of` sentence.
Proof.
  unfold filtered_sentence_raw.
  induction sentence as [|item sentence IH]; [done |].
  cbn [omap list_omap]. destruct item as [s|]; simpl.
  - destruct (TONE3_STYLE_PATTERN s); simpl.
    + by apply sublist_skip.
    + by apply sublist_cons.
  - by apply sublist_cons.
Qed.

Lemma elem_of_filtered_sentence_raw (sentence : list pyobj) (s : pystr) :
  s ∈ filtered_sentence_raw sentence <->
  PyStr s ∈ sentence /\ is_tone3_style (PyStr s) = true.
Proof.
  unfold filtered_sentence_raw. rewrite list_elem_of_omap. split.
  - intros [item [Hin Hitem]]. destruct item as [s'|]; [| done].
    destruct (is_tone3_style (PyStr s')) eqn:Hs; [| done].
    by inversion Hitem; subst.
  - intros [Hin Hs]. exists (PyStr s). by rewrite Hs.
Qed.

(** C4 (defect). An entry made of a letter and a final newline does not have
    the shape of a tone-3 romanization, yet the filter keeps it: [$] also
    matches just before a newline that ends the string. *)
Theorem filter_keeps_trailing_newline :
  let item := py "a" ++ [10] in
  ~ tone3_shape item /\
  is_tone3_style (PyStr item) = true /\
  filtered_sentence_raw [PyStr item] = [item].
Proof.
  split; [| by vm_compute].
  intros (letters & tone & Hs & Hne & Hl & Ht).
  assert (Hlast : last (letters ++ tone) = Some 10)
    by (rewrite <- Hs; reflexivity).
  destruct Ht as [->|[d [-> Hd]]].
  - rewrite app_nil_r in Hlast. apply last_Some in Hlast as [l' ->].
    apply Forall_app in Hl as [_ Hl]. by inversion Hl.
  - rewrite last_snoc in Hlast. by inversion Hlast; subst.
Qed.

(** C7. The correction table turns every [shei2] of the filtered stream into
    [shui2] and leaves every other entry as it is; [shei2] itself passes the
    filter, and none is left afterwards. *)
Theorem translation_map_applied (sentence : list pyobj) :
  filtered_sentence sentence =
    (fun item => if decide (item = shei2) then shui2 else item)
      <$> filtered_sentence_raw sentence
  /\ is_tone3_style (PyStr shei2) = true
  /\ shei2 ∉ filtered_sentence sentence.
Proof.
  assert (Hget : forall item : pystr,
    default item (translation_map !! item) =
    if decide (item = shei2) then shui2 else item).
  { intros item. unfold translation_map.
    destruct (decide (item = shei2)) as [->|Hne].
    - by rewrite lookup_singleton_eq.
    - by rewrite lookup_singleton_ne. }
  assert (Heq : filtered_sentence sentence =
    (fun item => if decide (item = shei2) then shui2 else item)
      <$> filtered_sentence_raw sentence).
  { unfold filtered_sentence. apply list_fmap_ext. intros _ item _. apply Hget. }
  split; [done |]. split; [by vm_compute |].
  rewrite Heq. intros Hin. apply list_elem_of_fmap in Hin as [item [Hitem _]].
  destruct (decide (item = shei2)); [by vm_compute in Hitem | by subst].
Qed.

(** * The engine on concrete lines *)

(** The engine with the stand-in collaborators. *)
Abbreviation demo_convert :=
  (convert_char_to_pinyin Demo.cut Demo.lazy_pinyin Demo.g2pw_lazy_pinyin).
Abbreviation demo_line :=
  (convert_line Demo.cut Demo.lazy_pinyin Demo.g2pw_lazy_pinyin).

(** A line below U+0800 has no east asian text, however it is cut. *)
Lemma utf8_len_short (seg : pystr) (n : nat) :
  Forall (fun c => c < 0x800) seg ->
  utf8_len seg = Some n -> (n <= 2 * length seg)%nat.
Proof.
  intros Hseg. revert n. induction Hseg as [|c seg Hc _ IH]; simpl; intros n H.
  - inversion H. lia.
  - destruct (utf8_width c) as [w|] eqn:Hw; [| done].
    destruct (utf8_len seg) as [m|]; [| done].
    inversion H; subst. specialize (IH m eq_refl).
    assert (w <= 2)%nat; [| lia].
    unfold utf8_width in Hw. cases_N; inversion Hw; lia.
Qed.

Lemma below_0x800_no_east_asian (segs : list pystr) :
  Forall (fun c => c < 0x800) (concat segs) -> no_east_asian segs.
Proof.
  unfold no_east_asian. induction segs as [|seg segs IH]; simpl; intros H;
    [constructor |].
  apply Forall_app in H as [Hseg Hrest]. constructor; [| by apply IH].
  split.
  - unfold pure_east_asian, literal.
    destruct (utf8_len seg) as [n|] eqn:Hn;
      [| by rewrite andb_comm, bool_decide_eq_false_2].
    pose proof (utf8_len_short _ _ Hseg Hn).
    destruct (decide (n = (3 * length seg)%nat)) as [->|Hne].
    + assert (Hnil : length seg = 0%nat) by lia.
      rewrite Hnil. by rewrite bool_decide_eq_true_2.
    + rewrite (bool_decide_eq_false_2 (Some n = Some (3 * length seg)%nat))
        by congruence.
      apply andb_false_r.
  - eapply Forall_impl; [exact Hseg |]. intros c Hc.
    unfold is_chinese. simpl in Hc. cases_N.
Qed.

(** ** Reconciliation *)

(** C1 on two batches of the lines go客 and 客: the first line of the first
    batch is misaligned and the merged sequences are returned all the same;
    in the second batch the misaligned line comes last and the context-free
    sequences are returned, with the diagnostic. *)
Lemma reconciliation_on_last_line_witness :
  demo_convert true false [Demo.go_ke; [Demo.ke]] =
    Ok ([[[103]; [111]; space; py "go"]; [space; py "ke4"]], [])
  /\ demo_convert true false [[Demo.ke]; Demo.go_ke] =
    Ok ([[space; py "ke4"]; [[103]; [111]; space; py "ke4"]],
        [LengthDifferent 1 2]).
Proof.
  split.
  - refine (eq_trans
      (reconciliation_on_last_line Demo.cut Demo.lazy_pinyin
         Demo.g2pw_lazy_pinyin true false [Demo.go_ke] [Demo.ke]
         [Walk [[103]; [111]; space; py "ke4"] [[103]; [111]; space; py "go"]
               1 []]
         (Walk [space; py "ke4"] [space; py "ke4"] 1 []) _ _) _);
      by_evaluation.
  - refine (eq_trans
      (reconciliation_on_last_line Demo.cut Demo.lazy_pinyin
         Demo.g2pw_lazy_pinyin true false [[Demo.ke]] Demo.go_ke
         [Walk [space; py "ke4"] [space; py "ke4"] 1 []]
         (Walk [[103]; [111]; space; py "ke4"] [[103]; [111]; space; py "go"]
               1 []) _ _) _);
      by_evaluation.
Defined.

(** C3 as stated, refuted: in the batch of go客 and 客 the merged sequences
    are returned and no mismatch is reported, yet the first line has one
    character of the Chinese block against a filtered stream of two
    entries. *)
Lemma merged_returned_with_misaligned_line :
  ~ (forall (cut lazy_pinyin : pystr -> list pystr)
            (g2pw_lazy_pinyin : pystr -> list pyobj) (polyphone isDebug : bool)
            (text_list : list pystr) (out : list (list pystr))
            (msgs : list diag) (i : nat) (line : pystr),
       convert_char_to_pinyin cut lazy_pinyin g2pw_lazy_pinyin polyphone
         isDebug text_list = Ok (out, msgs) ->
       (forall a b, LengthDifferent a b ∉ msgs) ->
       text_list !! i = Some line ->
       chinese_count (concat (cut (translate custom_trans line))) =
       length (line_stream g2pw_lazy_pinyin line)).
Proof.
  intros H.
  specialize (H Demo.cut Demo.lazy_pinyin Demo.g2pw_lazy_pinyin true false
                [Demo.go_ke; [Demo.ke]]
                [[[103]; [111]; space; py "go"]; [space; py "ke4"]] []
                0%nat Demo.go_ke).
  assert (Hrun : demo_convert true false [Demo.go_ke; [Demo.ke]] =
                 Ok ([[[103]; [111]; space; py "go"]; [space; py "ke4"]], []))
    by (by vm_compute).
  specialize (H Hrun (fun a b => not_elem_of_nil _) eq_refl).
  by vm_compute in H.
Qed.

Lemma cursor_meets_stream_on_last_line_witness :
  exists st,
    demo_line true false [Demo.ke] = Ok st /\
    last [[[103]; [111]; space; py "go"]; [space; py "ke4"]] =
      Some (char_list_whole st) /\
    j st = chinese_count
             (concat (Demo.cut (translate custom_trans [Demo.ke]))) /\
    j st = length (line_stream Demo.g2pw_lazy_pinyin [Demo.ke]).
Proof.
  apply (cursor_meets_stream_on_last_line Demo.cut Demo.lazy_pinyin
           Demo.g2pw_lazy_pinyin true false [Demo.go_ke] [Demo.ke]
           [[[103]; [111]; space; py "go"]; [space; py "ke4"]] []).
  - vm_compute. reflexivity.
  - intros a b. apply not_elem_of_nil.
Defined.

(** ** Characters of the Chinese block *)

(** C2 as stated, refuted: with the stream used up, the merged output of both
    branches gets the space and no token, not the context-free token; the
    batch of the lines U+3231 and 客 returns such a merged sequence. *)
Lemma merged_output_misses_token :
  ~ (forall (lazy_pinyin : pystr -> list pystr) (isDebug : bool)
            (seg_ filtered : list pystr) (i : nat) (c : char) (st : walk)
            (tok : pystr),
       is_chinese c = true ->
       seg_ !! i = Some tok ->
       (length filtered <= j st)%nat ->
       (exists st', pronounceable_char isDebug seg_ filtered i c st = Ok st' /\
                    char_list_whole st' = char_list_whole st ++ [space; tok])
       /\ char_list_whole (mixed_char lazy_pinyin isDebug filtered st c) =
          char_list_whole st ++ space :: lazy_pinyin [c])
  /\ demo_convert true false [[Demo.kabu]; [Demo.ke]] =
       Ok ([[space]; [space; py "ke4"]], []).
Proof.
  split; [| by vm_compute].
  intros H.
  destruct (H Demo.lazy_pinyin false [[Demo.kabu]] [] 0%nat Demo.kabu
              (Walk [] [] 0 []) [Demo.kabu] eq_refl eq_refl (Nat.le_refl _))
    as [_ Hmixed].
  by vm_compute in Hmixed.
Qed.

Lemma chinese_char_takes_stream_token_witness :
  char_list_whole
    (mixed_char Demo.lazy_pinyin false [py "ke4"] (Walk [] [] 0 []) Demo.ke) =
    [space; py "ke4"]
  /\ char_list_whole
       (mixed_char Demo.lazy_pinyin false [] (Walk [] [] 0 []) Demo.kabu) =
     [space].
Proof.
  split.
  - destruct (chinese_char_takes_stream_token Demo.lazy_pinyin false
                [py "ke4"] [py "ke4"] 0 Demo.ke (Walk [] [] 0 []) (py "ke4")
                eq_refl eq_refl) as (_ & (_ & H & _) & _).
    exact H.
  - destruct (chinese_char_takes_stream_token Demo.lazy_pinyin false
                [[Demo.kabu]] [] 0 Demo.kabu (Walk [] [] 0 []) [Demo.kabu]
                eq_refl eq_refl) as (_ & (_ & H & _) & _).
    exact H.
Defined.

(** ** The boundary space *)

(** C5 as stated, refuted: after a colon, which is neither a space nor a
    quote, a literal segment of two bytes gets no boundary space; the line
    a:bc comes out without one. *)
Lemma no_boundary_space_after_colon :
  ~ (forall (lazy_pinyin : pystr -> list pystr) (polyphone isDebug : bool)
            (filtered : list pystr) (seg : pystr) (st : walk) (prev : pystr),
       utf8_len seg = Some (length seg) ->
       (1 < length seg)%nat ->
       last (char_list st) = Some prev ->
       prev <> [32] -> prev <> [39] -> prev <> [34] ->
       walk_segment lazy_pinyin polyphone isDebug filtered seg st =
         Ok (Walk (char_list st ++ space :: chars seg)
                  (char_list_whole st ++ space :: chars seg)
                  (j st) (printed st)))
  /\ demo_convert true false [py "a:bc"] =
       Ok ([[[97]; [58]; [98]; [99]]], []).
Proof.
  split; [| by vm_compute].
  intros H.
  specialize (H Demo.lazy_pinyin true false [] (py "bc")
                (Walk [[97]; [58]] [[97]; [58]] 0 []) [58]
                eq_refl ltac:(vm_compute; lia) eq_refl
                ltac:(done) ltac:(done) ltac:(done)).
  by vm_compute in H.
Qed.

Lemma literal_boundary_space_witness :
  walk_segment Demo.lazy_pinyin true false [] (py "bc")
    (Walk [[97]; [44]] [[97]; [44]] 0 []) =
    Ok (Walk [[97]; [44]; space; [98]; [99]] [[97]; [44]; space; [98]; [99]]
             0 [])
  /\ exists st,
       demo_line true false Demo.go_ke = Ok st /\
       char_list st = [[103]; [111]; space; py "ke4"] /\
       char_list_whole st = [[103]; [111]; space; py "go"].
Proof.
  destruct (literal_boundary_space Demo.cut Demo.lazy_pinyin
              Demo.g2pw_lazy_pinyin true false) as [Hrule Hgo].
  split.
  - exact (Hrule [] (py "bc") (Walk [[97]; [44]] [[97]; [44]] 0 []) [44]
             eq_refl ltac:(vm_compute; lia) eq_refl eq_refl).
  - apply Hgo.
    + vm_compute. reflexivity.
    + intros _. vm_compute. discriminate.
Defined.

(** ** Lines without east asian text *)

Lemma no_east_asian_pass_through_witness :
  [[[97]; [44]; space; [98]; [99]]; [space; py "ke4"]] !! 0%nat =
  Some (pass_through (Demo.cut (translate custom_trans (py "a;bc")))).
Proof.
  apply (no_east_asian_pass_through Demo.cut Demo.lazy_pinyin
           Demo.g2pw_lazy_pinyin true false [py "a;bc"; [Demo.ke]] _ []);
    by_evaluation.
Defined.

(** ** The engine on its own output *)

(** C9 as stated, refuted: the line go客 gives the sequence g, o, space, ke4,
    which holds no character of the Chinese block; run again on that
    sequence joined as text, the engine returns ke4 as three entries. *)
Lemma rerun_splits_tokens :
  ~ (forall (cut lazy_pinyin : pystr -> list pystr)
            (g2pw_lazy_pinyin : pystr -> list pyobj) (polyphone isDebug : bool)
            (line : pystr) (out : list pystr) (msgs : list diag),
       convert_char_to_pinyin cut lazy_pinyin g2pw_lazy_pinyin polyphone
         isDebug [line] = Ok ([out], msgs) ->
       Forall (Forall (fun c => is_chinese c = false)) out ->
       exists msgs',
         convert_char_to_pinyin cut lazy_pinyin g2pw_lazy_pinyin polyphone
           isDebug [concat out] = Ok ([out], msgs'))
  /\ demo_convert true false [Demo.go_ke] =
       Ok ([[[103]; [111]; space; py "ke4"]], [LengthDifferent 1 2])
  /\ demo_convert true false [py "go ke4"] =
       Ok ([[[103]; [111]; space; [107]; [101]; [52]]], []).
Proof.
  split; [| by vm_compute].
  intros H.
  destruct (H Demo.cut Demo.lazy_pinyin Demo.g2pw_lazy_pinyin true false
              Demo.go_ke [[103]; [111]; space; py "ke4"]
              [LengthDifferent 1 2]) as [msgs' Hrerun].
  - by vm_compute.
  - by_evaluation.
  - by vm_compute in Hrerun.
Qed.

Lemma rerun_passes_through_witness :
  exists msgs,
    demo_convert true false [concat [[103]; [111]; space; py "ke4"]] =
      Ok ([pass_through
             (Demo.cut (translate custom_trans
                          (concat [[103]; [111]; space; py "ke4"])))], msgs) /\
    Forall (fun e : pystr => length e = 1%nat)
      (pass_through
         (Demo.cut (translate custom_trans
                      (concat [[103]; [111]; space; py "ke4"])))) /\
    filter (fun c => c <> 32)
      (concat (pass_through
         (Demo.cut (translate custom_trans
                      (concat [[103]; [111]; space; py "ke4"]))))) =
    filter (fun c => c <> 32)
      (translate custom_trans (concat [[103]; [111]; space; py "ke4"])) /\
    (Exists (fun e : pystr => length e <> 1%nat)
       [[103]; [111]; space; py "ke4"] ->
     pass_through
       (Demo.cut (translate custom_trans
                    (concat [[103]; [111]; space; py "ke4"]))) <>
     [[103]; [111]; space; py "ke4"]).
Proof.
  apply (rerun_passes_through Demo.cut Demo.lazy_pinyin Demo.g2pw_lazy_pinyin
           true false [[103]; [111]; space; py "ke4"]);
    by_evaluation.
Defined.

(** * Further properties *)

(** ** More on the repetition filter *)

(** X1. A text shorter than the window has no window at all: the answer is
    false whatever the tolerance. *)
Theorem repetition_window_longer_than_text (text : pystr)
    (length_ tolerance : Z) :
  (Z.of_nat (length text) < length_)%Z ->
  repetition_found text length_ tolerance = false.
Proof.
  intros Hlong. unfold repetition_found, pattern_counts, py_range.
  replace (Z.to_nat (Z.of_nat (length text) - length_ + 1)) with 0%nat by lia.
  cbn [seq fmap list_fmap foldl]. by rewrite map_to_list_empty.
Qed.

Lemma repetition_window_longer_than_text_witness :
  repetition_found (py "ab") 3 (-1) = false.
Proof.
  apply (repetition_window_longer_than_text (py "ab") 3 (-1)).
  vm_compute. reflexivity.
Defined.

(** X2. Lowering the tolerance never turns a found repetition into none. *)
Theorem repetition_tolerance_monotone (text : pystr)
    (length_ tolerance tolerance' : Z) :
  (tolerance' <= tolerance)%Z ->
  repetition_found text length_ tolerance = true ->
  repetition_found text length_ tolerance' = true.
Proof.
  unfold repetition_found. rewrite !existsb_exists.
  intros Hle [[p c] [Hin Hc]]. exists (p, c). split; [done |].
  simpl in *. apply Z.ltb_lt in Hc. apply Z.ltb_lt. lia.
Qed.

Lemma repetition_tolerance_monotone_witness :
  repetition_found (py "ababab") 2 1 = true.
Proof.
  apply (repetition_tolerance_monotone (py "ababab") 2 2 1).
  - lia.
  - vm_compute. reflexivity.
Defined.

Lemma occurrences_le_length (p : pystr) (ps : list pystr) :
  (occurrences p ps <= Z.of_nat (length ps))%Z.
Proof.
  unfold occurrences. pose proof (length_filter (fun q => q = p) ps). lia.
Qed.

(** X3. A tolerance of at least the number of windows is never exceeded: with
    [len(text) - n + 1 <= tolerance] the answer is false. *)
Theorem repetition_tolerance_covers_windows (text : pystr) (n : nat)
    (tolerance : Z) :
  (Z.of_nat (length text) - Z.of_nat n + 1 <= tolerance)%Z ->
  repetition_found text (Z.of_nat n) tolerance = false.
Proof.
  intros Htol. apply not_true_is_false. intros Hfound.
  unfold repetition_found in Hfound.
  rewrite pattern_counts_windows, existsb_exists in Hfound.
  destruct Hfound as [[p c] [Hin Hlt]]. apply list_elem_of_In in Hin.
  apply elem_of_map_to_list in Hin. rewrite foldl_count_pattern in Hin.
  destruct (decide (p ∈ windows text n)) as [Hp|Hp]; [| done].
  inversion Hin; subst. apply Z.ltb_lt in Hlt.
  pose proof (occurrences_le_length p (windows text n)) as Hocc.
  pose proof (occurrences_pos _ _ Hp) as Hpos.
  assert (Hlen : length (windows text n) = (length text + 1 - n)%nat)
    by (unfold windows; by rewrite length_fmap, length_seq).
  rewrite Hlen in Hocc. lia.
Qed.

Lemma repetition_tolerance_covers_windows_witness :
  repetition_found (py "aaaa") (Z.of_nat 2) 3 = false.
Proof.
  apply (repetition_tolerance_covers_windows (py "aaaa") 2 3).
  vm_compute. discriminate.
Defined.

(** ** The pruned sampling steps *)

(** X4. Every predefined schedule for [n] steps has [n + 1] entries, starts
    at 0, ends at 32, which [dt = 1 / 32] scales to 1, and increases
    strictly; any other [n] falls back to [linspace] with [n + 1] points. *)
Theorem predefined_schedule_shape (n : Z) :
  match get_epss_timesteps n with
  | DtTimes t =>
      (n ∈ [5; 6; 7; 10; 12; 16]%Z) /\
      Z.of_nat (length t) = (n + 1)%Z /\
      head t = Some 0%Z /\ last t = Some 32%Z /\
      StronglySorted Z.lt t
  | Linspace steps => (n ∉ [5; 6; 7; 10; 12; 16]%Z) /\ steps = (n + 1)%Z
  end.
Proof.
  unfold get_epss_timesteps.
  destruct (predefined_timesteps !! n) as [t|] eqn:Hn; simpl.
  - apply elem_of_map_to_list in Hn.
    let l := eval vm_compute in (map_to_list predefined_timesteps) in
    change (map_to_list predefined_timesteps) with l in Hn.
    repeat (apply elem_of_cons in Hn as [Hn|Hn];
            [inversion Hn; subst; clear Hn;
             split; [set_solver |];
             split; [reflexivity |]; split; [reflexivity |];
             split; [reflexivity |]; repeat constructor; lia |]).
    by apply elem_of_nil in Hn.
  - split; [| done]. intros Hin.
    repeat (apply elem_of_cons in Hin as [->|Hin]; [by vm_compute in Hn |]).
    by apply elem_of_nil in Hin.
Qed.

(** ** Masks *)

Lemma lens_row_seq (ti : Z) (m : nat) :
  forall s : nat,
    lens_row (Z.of_nat <$> seq s m) ti =
    replicate (m `min` (Z.to_nat ti - s)) true ++
    replicate (m - (Z.to_nat ti - s)) false.
Proof.
  unfold lens_row. induction m as [|m IH]; intros s; [done |].
  cbn [seq fmap list_fmap]. rewrite (IH (S s)).
  destruct (Z.ltb_spec (Z.of_nat s) ti) as [Hlt|Hge].
  - replace (S m `min` (Z.to_nat ti - s))%nat
      with (S (m `min` (Z.to_nat ti - S s)))%nat by lia.
    replace (S m - (Z.to_nat ti - s))%nat
      with (m - (Z.to_nat ti - S s))%nat by lia.
    done.
  - replace (Z.to_nat ti - s)%nat with 0%nat by lia.
    replace (Z.to_nat ti - S s)%nat with 0%nat by lia.
    rewrite !Nat.min_0_r, !Nat.sub_0_r. done.
Qed.

Lemma tensor_max_ge (t : list Z) (n : Z) :
  tensor_max t = Returns n -> Forall (fun x => (x <= n)%Z) t.
Proof.
  destruct t as [|x t]; [done |]. simpl. intros H. inversion H as [Hn].
  clear H Hn.
  assert (Hgen : forall (l : list Z) (a : Z),
    (a <= foldl Z.max a l)%Z /\ Forall (fun y => (y <= foldl Z.max a l)%Z) l).
  { induction l as [|y l IH]; intros a; simpl; [split; [lia | constructor] |].
    destruct (IH (Z.max a y)) as [Ha Hl]. split; [lia |].
    constructor; [lia | done]. }
  destruct (Hgen t x) as [Hx Ht]. by constructor.
Qed.

Lemma lens_to_mask_width (t : list Z) (n : Z) :
  (0 <= n)%Z -> lens_to_mask t (Some n) = Returns (prefix_row n <$> t).
Proof.
  intros Hn. unfold lens_to_mask, arange.
  destruct (Z.ltb_spec n 0) as [|_]; [lia |]. f_equal.
  apply list_fmap_ext. intros _ ti _. unfold py_range, prefix_row.
  rewrite lens_row_seq. by rewrite !Nat.sub_0_r.
Qed.

Lemma lens_to_mask_default (t : list Z) :
  lens_to_mask t None =
  match tensor_max t with
  | Returns n => lens_to_mask t (Some n)
  | Raises e => Raises e
  end.
Proof. unfold lens_to_mask. by destruct (tensor_max t). Qed.

(** X5. Row [i] of [lens_to_mask] is true on its first [t_i] positions,
    cut to the width of the mask and to zero for a negative [t_i], and false
    after; the width is [length], or the largest entry of [t] when none is
    given. *)
Theorem lens_to_mask_rows (t : list Z) (length_ : option Z)
    (mask : list (list bool)) :
  lens_to_mask t length_ = Returns mask ->
  exists n : Z,
    (0 <= n)%Z /\
    match length_ with
    | Some l => n = l
    | None => tensor_max t = Returns n
    end /\
    mask = prefix_row n <$> t.
Proof.
  intros H.
  assert (Hwidth : forall n, lens_to_mask t (Some n) = Returns mask ->
                             (0 <= n)%Z /\ mask = prefix_row n <$> t).
  { intros n Hn. destruct (Z.ltb_spec n 0) as [Hneg|Hpos].
    - unfold lens_to_mask, arange in Hn.
      by destruct (Z.ltb_spec n 0) as [|]; [| lia].
    - rewrite lens_to_mask_width in Hn by done. by inversion Hn. }
  destruct length_ as [l|].
  - exists l. destruct (Hwidth l H). done.
  - rewrite lens_to_mask_default in H.
    destruct (tensor_max t) as [n|]; [| done].
    exists n. destruct (Hwidth n H). done.
Qed.

Lemma lens_to_mask_rows_witness :
  exists n : Z,
    (0 <= n)%Z /\ n = 3%Z /\
    [[true; true; false]; [false; false; false]; [true; true; true]] =
      prefix_row n <$> [2; -1; 5]%Z.
Proof.
  apply (lens_to_mask_rows [2; -1; 5]%Z (Some 3%Z)).
  vm_compute. reflexivity.
Defined.

Lemma count_true_prefix (a b : nat) :
  count_true (replicate a true ++ replicate b false) = a.
Proof.
  unfold count_true. rewrite filter_app, length_app.
  assert (Ht : filter (fun b0 : bool => b0 = true) (replicate a true)
               = replicate a true).
  { induction a as [|a IH]; [done |]. simpl. rewrite filter_cons_True by done.
    by rewrite IH. }
  assert (Hf : filter (fun b0 : bool => b0 = true) (replicate b false) = []).
  { induction b as [|b IH]; [done |]. simpl.
    by rewrite filter_cons_False by done. }
  rewrite Ht, Hf, length_replicate. simpl. lia.
Qed.

(** X6. Lengths survive the mask: for a non-empty tensor of non-negative
    lengths and no [length] argument, the call returns a mask whose rows
    count exactly those lengths. *)
Theorem lens_to_mask_recovers_lengths (t : list Z) :
  t <> [] ->
  Forall (fun ti => (0 <= ti)%Z) t ->
  exists mask,
    lens_to_mask t None = Returns mask /\
    (fun row => Z.of_nat (count_true row)) <$> mask = t.
Proof.
  intros Hne Hpos. rewrite lens_to_mask_default.
  destruct (tensor_max t) as [n|] eqn:Hn; [| by destruct t].
  pose proof (tensor_max_ge _ _ Hn) as Hle.
  assert (Hn0 : (0 <= n)%Z).
  { destruct t as [|x t]; [done |]. inversion Hpos; inversion Hle; subst. lia. }
  rewrite lens_to_mask_width by done. eexists. split; [done |].
  rewrite <- list_fmap_compose. rewrite <- (list_fmap_id t) at 2.
  apply Forall_fmap_ext_1.
  rewrite Forall_forall in Hpos, Hle. apply Forall_forall. intros ti Hti.
  specialize (Hpos ti Hti). specialize (Hle ti Hti). simpl.
  unfold prefix_row. rewrite count_true_prefix. lia.
Qed.

Lemma lens_to_mask_recovers_lengths_witness :
  exists mask,
    lens_to_mask [2; 0; 3]%Z None = Returns mask /\
    (fun row => Z.of_nat (count_true row)) <$> mask = [2; 0; 3]%Z.
Proof.
  apply (lens_to_mask_recovers_lengths [2; 0; 3]%Z).
  - discriminate.
  - repeat constructor; lia.
Defined.

Lemma start_end_row (seq_ : list Z) (s e : Z) :
  zip_with andb ((fun k => (s <=? k)%Z) <$> seq_) ((fun k => (k <? e)%Z) <$> seq_)
  = (fun k => (s <=? k)%Z && (k <? e)%Z) <$> seq_.
Proof. induction seq_ as [|k seq_ IH]; [done |]. cbn. by rewrite IH. Qed.

Lemma start_end_rows (seq_ : list Z) (start end_ : list Z) :
  zip_with (zip_with andb)
    ((fun s => (fun k => (s <=? k)%Z) <$> seq_) <$> start)
    ((fun e => (fun k => (k <? e)%Z) <$> seq_) <$> end_)
  = zip_with (fun s e => (fun k => (s <=? k)%Z && (k <? e)%Z) <$> seq_)
             start end_.
Proof.
  revert end_. induction start as [|s start IH]; intros [|e end_]; try done.
  cbn. by rewrite start_end_row, IH.
Qed.

(** X7. With as many starts as ends, entry [k] of row [i] of
    [mask_from_start_end_indices] tells whether [start_i <= k < end_i]; every
    row is as wide as the largest entry of [seq_len]. *)
Theorem start_end_mask_entries (seq_len start end_ : list Z)
    (mask : list (list bool)) :
  length start = length end_ ->
  mask_from_start_end_indices seq_len start end_ = Returns mask ->
  exists n : Z,
    tensor_max seq_len = Returns n /\ (0 <= n)%Z /\
    length mask = length start /\
    forall (i : nat) (s e : Z),
      start !! i = Some s -> end_ !! i = Some e ->
      exists row,
        mask !! i = Some row /\ length row = Z.to_nat n /\
        forall k : nat,
          (k < Z.to_nat n)%nat ->
          row !! k = Some (bool_decide (s <= Z.of_nat k < e)%Z).
Proof.
  intros Hlen. unfold mask_from_start_end_indices.
  destruct (tensor_max seq_len) as [n|]; [| done].
  unfold arange. destruct (Z.ltb_spec n 0) as [|Hn]; [done |].
  unfold broadcast_and. rewrite !length_fmap, Hlen, Nat.eqb_refl.
  rewrite start_end_rows. intros H. inversion H; subst. clear H.
  exists n. split; [done |]. split; [done |]. split.
  - rewrite length_zip_with. lia.
  - intros i s e Hs He. eexists. split.
    + rewrite lookup_zip_with, Hs. simpl. by rewrite He.
    + split; [unfold py_range; by rewrite !length_fmap, length_seq |].
      intros k Hk. unfold py_range.
      rewrite !list_lookup_fmap, lookup_seq_lt by done. simpl. f_equal.
      destruct (Z.leb_spec s (Z.of_nat k)), (Z.ltb_spec (Z.of_nat k) e);
        simpl; symmetry;
        first [apply bool_decide_eq_true_2; lia
              | apply bool_decide_eq_false_2; lia].
Qed.

Lemma start_end_mask_entries_witness :
  exists n : Z,
    tensor_max [4; 2]%Z = Returns n /\ (0 <= n)%Z /\
    length [[false; true; true; false]; [true; true; true; true]] =
      length [1; 0]%Z /\
    forall (i : nat) (s e : Z),
      [1; 0]%Z !! i = Some s -> [3; 9]%Z !! i = Some e ->
      exists row,
        [[false; true; true; false]; [true; true; true; true]] !! i = Some row
        /\ length row = Z.to_nat n /\
        forall k : nat,
          (k < Z.to_nat n)%nat ->
          row !! k = Some (bool_decide (s <= Z.of_nat k < e)%Z).
Proof.
  apply (start_end_mask_entries [4; 2]%Z [1; 0]%Z [3; 9]%Z).
  - reflexivity.
  - vm_compute. reflexivity.
Defined.

Lemma zero_start_row (seq_ : list Z) (e : Z) :
  Forall (fun k => (0 <= k)%Z) seq_ ->
  (fun k => (0 <=? k)%Z && (k <? e)%Z) <$> seq_ = lens_row seq_ e.
Proof.
  unfold lens_row. induction 1 as [|k seq_ Hk _ IH]; [done |].
  cbn. rewrite IH. by destruct (Z.leb_spec 0 k); [| lia].
Qed.

(** X8. A span mask that starts every row at 0 is the length mask:
    [mask_from_start_end_indices(seq_len, zeros, t)] is
    [lens_to_mask(t, length=seq_len.max())], raising or returning alike. *)
Theorem start_end_mask_from_zero (seq_len t : list Z) (n : Z) :
  tensor_max seq_len = Returns n ->
  mask_from_start_end_indices seq_len (replicate (length t) 0%Z) t =
  lens_to_mask t (Some n).
Proof.
  intros Hn. unfold mask_from_start_end_indices, lens_to_mask. rewrite Hn.
  unfold arange. destruct (Z.ltb_spec n 0) as [|Hpos]; [done |].
  unfold broadcast_and.
  rewrite !length_fmap, length_replicate, Nat.eqb_refl, start_end_rows.
  f_equal.
  assert (Hseq : Forall (fun k => (0 <= k)%Z) (py_range n)).
  { unfold py_range. apply Forall_fmap, Forall_forall. intros k _. simpl. lia. }
  induction t as [|e t IH]; [done |].
  cbn. by rewrite zero_start_row, IH.
Qed.

Lemma start_end_mask_from_zero_witness :
  mask_from_start_end_indices [3; 1]%Z (replicate (length [2; 5]%Z) 0%Z)
    [2; 5]%Z =
  lens_to_mask [2; 5]%Z (Some 3%Z).
Proof.
  apply (start_end_mask_from_zero [3; 1]%Z [2; 5]%Z 3%Z).
  reflexivity.
Defined.

(** ** Strings as tensors of bytes *)

Lemma utf8_bytes_width (c : char) : length <$> utf8_bytes c = utf8_width c.
Proof. unfold utf8_bytes, utf8_width. cases_N. Qed.

(** X9. The list of bytes [list_str_to_tensor] makes of a string has the
    length the engine computes for a segment: both fail on the same strings
    and agree on the others. *)
Theorem encode_utf8_length (t : pystr) :
  length <$> encode_utf8 t = utf8_len t.
Proof.
  induction t as [|c t IH]; [done |]. simpl.
  rewrite <- utf8_bytes_width, <- IH.
  destruct (utf8_bytes c), (encode_utf8 t); simpl; try done.
  by rewrite length_app.
Qed.

Lemma utf8_bytes_range (c : char) (bs : list Z) :
  c <= 0x10FFFF ->
  utf8_bytes c = Some bs ->
  Forall (fun b => (0 <= b < 256)%Z) bs.
Proof.
  unfold utf8_bytes. intros Hc Hbs.
  repeat match type of Hbs with
         | context [N.ltb ?a ?b] => destruct (N.ltb_spec a b)
         | context [N.leb ?a ?b] => destruct (N.leb_spec a b)
         end; simpl in Hbs; try done; injection Hbs as <-;
    repeat constructor; Z.div_mod_to_equations; lia.
Qed.

Lemma encode_utf8_range (t : pystr) (bs : list Z) :
  Forall (fun c => c <= 0x10FFFF) t ->
  encode_utf8 t = Some bs ->
  Forall (fun b => (0 <= b < 256)%Z) bs.
Proof.
  intros Ht. revert bs.
  induction Ht as [|c t Hc _ IH]; simpl; intros bs Hbs.
  - injection Hbs as <-. constructor.
  - destruct (utf8_bytes c) as [b|] eqn:Hb; [| done].
    destruct (encode_utf8 t) as [rest|]; [| done].
    injection Hbs as <-. apply Forall_app. split; [| by apply IH].
    by apply (utf8_bytes_range c).
Qed.

Lemma utf8_bytes_None (c : char) :
  utf8_bytes c = None <-> 0xD800 <= c <= 0xDFFF.
Proof. unfold utf8_bytes. split; intros H; cases_N. Qed.

Lemma encode_utf8_None (t : pystr) :
  encode_utf8 t = None <-> Exists (fun c => 0xD800 <= c <= 0xDFFF) t.
Proof.
  induction t as [|c t IH]; simpl.
  - split; [done | by intros H%Exists_nil].
  - rewrite Exists_cons, <- IH, <- utf8_bytes_None.
    destruct (utf8_bytes c), (encode_utf8 t); intuition congruence.
Qed.

Lemma encode_all_returns (text : list pystr) (rows : list (list Z)) :
  encode_all text = Returns rows ->
  Forall2 (fun t bs => encode_utf8 t = Some bs) text rows.
Proof.
  revert rows. induction text as [|t text IH]; simpl; intros rows H.
  - injection H as <-. constructor.
  - destruct (encode_utf8 t) as [bs|] eqn:Hbs; [| done].
    destruct (encode_all text) as [rows'|]; [| done].
    injection H as <-. constructor; [done | by apply IH].
Qed.

Lemma encode_all_raises (text : list pystr) (e : raised) :
  encode_all text = Raises e ->
  e = Exn UnicodeEncodeError /\ Exists (fun t => encode_utf8 t = None) text.
Proof.
  induction text as [|t text IH]; simpl; intros H; [done |].
  destruct (encode_utf8 t) as [bs|] eqn:Hbs.
  - destruct (encode_all text) as [rows'|e']; [done |].
    injection H as <-. destruct IH as [-> Hex]; [done |].
    split; [done | by apply Exists_cons_tl].
  - injection H as <-. split; [done | by apply Exists_cons_hd].
Qed.

Lemma pad_sequence_rows (rows : list (list Z)) (padding_value : Z) :
  rows <> [] ->
  pad_sequence rows padding_value =
    Returns ((fun r => r ++ replicate (max_list (length <$> rows) - length r)
                            padding_value) <$> rows).
Proof. by destruct rows. Qed.

Lemma padded_row_length (rows : list (list Z)) (r : list Z) (pad : Z) :
  r ∈ rows ->
  length (r ++ replicate (max_list (length <$> rows) - length r) pad) =
    max_list (length <$> rows).
Proof.
  intros Hr. rewrite length_app, length_replicate.
  assert (length r <= max_list (length <$> rows))%nat; [| lia].
  apply max_list_elem_of_le, list_elem_of_fmap. by exists r.
Qed.

Lemma filter_padding (r : list Z) (k : nat) (pad : Z) :
  Forall (fun b => b <> pad) r ->
  filter (fun b => b <> pad) (r ++ replicate k pad) = r.
Proof.
  intros Hr. rewrite filter_app.
  assert (Hpad : filter (fun b => b <> pad) (replicate k pad) = []).
  { induction k as [|k IH]; [done |]. simpl.
    by rewrite filter_cons_False by (intros H; by apply H). }
  rewrite Hpad, app_nil_r. clear Hpad.
  induction Hr as [|b r Hb _ IH]; [done |].
  by rewrite filter_cons_True, IH.
Qed.

(** X10. With a padding value that is no byte, as the default -1, the rows
    [list_str_to_tensor] returns all have one width, and row i without its
    padding is the UTF-8 encoding of string i. *)
Theorem list_str_to_tensor_rows (text : list pystr) (padding_value : Z)
    (m : list (list Z)) :
  list_str_to_tensor text padding_value = Returns m ->
  (padding_value < 0 \/ 255 < padding_value)%Z ->
  Forall (Forall (fun c => c <= 0x10FFFF)) text ->
  exists width,
    Forall (fun row => length row = width) m /\
    Forall2 (fun t row =>
               encode_utf8 t =
                 Some (filter (fun b => b <> padding_value) row)) text m.
Proof.
  unfold list_str_to_tensor. intros Hm Hpad Hvalid.
  destruct (encode_all text) as [rows|] eqn:Hrows; [| done].
  apply encode_all_returns in Hrows.
  destruct (decide (rows = [])) as [-> | Hne]; [done |].
  rewrite pad_sequence_rows in Hm by done. injection Hm as <-.
  exists (max_list (length <$> rows)). split.
  - apply Forall_fmap, Forall_forall. intros r Hr. simpl.
    by apply padded_row_length.
  - apply Forall2_fmap_r.
    generalize (max_list (length <$> rows)). intros w. clear Hne.
    induction Hrows as [|t bs text rows Hbs _ IH]; [constructor |].
    apply Forall_cons in Hvalid as [Ht Hvalid].
    constructor; [| by apply IH].
    simpl. rewrite filter_padding; [done |].
    eapply Forall_impl; [by apply (encode_utf8_range t) |].
    simpl. intros b Hb ->. lia.
Qed.

Lemma list_str_to_tensor_rows_witness :
  exists width,
    Forall (fun row => length row = width)
           [[103; 111; -1]; [229; 174; 162]]%Z /\
    Forall2 (fun t row =>
               encode_utf8 t = Some (filter (fun b => b <> (-1)%Z) row))
            [py "go"; [Demo.ke]] [[103; 111; -1]; [229; 174; 162]]%Z.
Proof.
  apply (list_str_to_tensor_rows [py "go"; [Demo.ke]] (-1)).
  - reflexivity.
  - lia.
  - repeat constructor; vm_compute; discriminate.
Defined.

(** X11. [list_str_to_tensor] returns one row per string when the list is
    not empty and no string has a lone surrogate; it raises
    [UnicodeEncodeError] when some string has one, and the [RuntimeError] of
    [pad_sequence] when the list is empty. *)
Theorem list_str_to_tensor_outcome (text : list pystr) (padding_value : Z) :
  match list_str_to_tensor text padding_value with
  | Returns m =>
      text <> [] /\ length m = length text /\
      Forall (Forall (fun c => c < 0xD800 \/ 0xDFFF < c)) text
  | Raises e =>
      (e = Exn UnicodeEncodeError /\
       Exists (Exists (fun c => 0xD800 <= c <= 0xDFFF)) text) \/
      (e = RuntimeError /\ text = [])
  end.
Proof.
  unfold list_str_to_tensor.
  destruct (encode_all text) as [rows|e] eqn:Hrows.
  - apply encode_all_returns in Hrows.
    destruct rows as [|r rows]; simpl.
    + right. split; [done |]. by apply Forall2_nil_inv_r in Hrows.
    + split; [by intros -> ; apply Forall2_nil_inv_l in Hrows |].
      split; [rewrite length_fmap; symmetry; by apply Forall2_length in Hrows |].
      apply Forall_forall. intros t Ht.
      apply (Forall2_Forall_l _ (fun t => is_Some (encode_utf8 t))) in Hrows
        as Hall.
      * rewrite Forall_forall in Hall. destruct (Hall t Ht) as [bs Hbs].
        apply Forall_forall. intros c Hc.
        destruct (decide (0xD800 <= c <= 0xDFFF)) as [Hs|]; [| lia].
        assert (encode_utf8 t = None); [| congruence].
        apply encode_utf8_None, Exists_exists. by exists c.
      * apply Forall_forall. by intros; eexists.
  - left. apply encode_all_raises in Hrows as [-> Hex]. split; [done |].
    eapply Exists_impl; [done |]. by intros t Ht%encode_utf8_None.
Qed.

(** ** The vocabulary file *)

Lemma read_vocab_snoc (lines : list pystr) (l : pystr) :
  read_vocab (lines ++ [l]) =
    <[line_key l := Z.of_nat (length lines)]> (read_vocab lines).
Proof.
  unfold read_vocab. rewrite length_app. simpl. rewrite seq_app. simpl.
  rewrite zip_with_app by (by rewrite length_seq). by rewrite foldl_app.
Qed.

Lemma read_vocab_None (lines : list pystr) (k : pystr) :
  read_vocab lines !! k = None <-> k ∉ line_key <$> lines.
Proof.
  induction lines as [|l lines IH] using rev_ind.
  - split; [intros _ H; by apply elem_of_nil in H | done].
  - rewrite read_vocab_snoc, lookup_insert_None, fmap_app, not_elem_of_app, IH.
    simpl. rewrite list_elem_of_singleton. intuition congruence.
Qed.

(** The index of a key is that of the last line that carries it. *)
Lemma read_vocab_last (lines : list pystr) (k : pystr) (i : Z) :
  read_vocab lines !! k = Some i <->
  exists n : nat,
    i = Z.of_nat n /\ (line_key <$> lines) !! n = Some k /\
    forall n' : nat, (n < n')%nat -> (line_key <$> lines) !! n' <> Some k.
Proof.
  revert i. induction lines as [|l lines IH] using rev_ind; intros i.
  - split; [done | by intros (n & _ & H & _)].
  - rewrite read_vocab_snoc, fmap_app. simpl.
    assert (Hlen : length (line_key <$> lines) = length lines)
      by apply length_fmap.
    destruct (decide (line_key l = k)) as [-> | Hk].
    + rewrite lookup_insert_eq. split.
      * intros [= <-]. exists (length lines). split; [done |]. split.
        -- by apply list_lookup_middle.
        -- intros n' Hn' H. apply lookup_lt_Some in H.
           rewrite length_app in H. simpl in H. lia.
      * intros (n & -> & Hn & Hlast).
        assert (Hmid : ((line_key <$> lines) ++ [k]) !! length lines = Some k)
          by (by apply list_lookup_middle).
        apply lookup_lt_Some in Hn as Hlt.
        rewrite length_app in Hlt. simpl in Hlt.
        destruct (decide (n = length lines)) as [-> | Hne]; [done |].
        exfalso. apply (Hlast (length lines)); [lia | done].
    + rewrite lookup_insert_ne by done. rewrite IH. split.
      * intros (n & -> & Hn & Hlast). exists n. split; [done |].
        apply lookup_lt_Some in Hn as Hlt.
        split; [by rewrite lookup_app_l by lia |].
        intros n' Hn' H.
        destruct (decide (n' < length lines)%nat) as [Hin|Hout].
        -- rewrite lookup_app_l in H by lia. by apply (Hlast n').
        -- rewrite lookup_app_r in H by lia.
           apply list_lookup_singleton_Some in H as [_ H]. done.
      * intros (n & -> & Hn & Hlast). exists n. split; [done |].
        destruct (decide (n < length lines)%nat) as [Hin|Hout].
        -- rewrite lookup_app_l in Hn by lia. split; [done |].
           intros n' Hn' H. apply (Hlast n' Hn').
           apply lookup_lt_Some in H as Hlt.
           by rewrite lookup_app_l by lia.
        -- rewrite lookup_app_r in Hn by lia.
           apply list_lookup_singleton_Some in Hn as [_ Hn]. done.
Qed.

(** X12. [vocab_char_map] has exactly the keys of the lines, each line
    without its last character, and a key that several lines carry keeps
    the index of the last of them. *)
Theorem read_vocab_lookup (lines : list pystr) (k : pystr) :
  match read_vocab lines !! k with
  | None => k ∉ line_key <$> lines
  | Some i =>
      exists n : nat,
        i = Z.of_nat n /\ (line_key <$> lines) !! n = Some k /\
        forall n' : nat, (n < n')%nat -> (line_key <$> lines) !! n' <> Some k
  end.
Proof.
  destruct (read_vocab lines !! k) as [i|] eqn:Hk.
  - by apply read_vocab_last.
  - by apply read_vocab_None.
Qed.

Lemma read_vocab_size (lines : list pystr) :
  NoDup (line_key <$> lines) -> size (read_vocab lines) = length lines.
Proof.
  induction lines as [|l lines IH] using rev_ind; intros Hnd; [done |].
  rewrite fmap_app in Hnd. apply NoDup_app in Hnd as (Hnd & Hfresh & _).
  rewrite read_vocab_snoc, map_size_insert_None, length_app.
  - rewrite IH by done. simpl. lia.
  - apply read_vocab_None. intros Hin. apply (Hfresh _ Hin). by left.
Qed.

(** X13. When no two lines of the file carry the same key, the vocabulary
    has one entry per line and maps the key of line [n] to [n]. *)
Theorem read_vocab_distinct (lines : list pystr) :
  NoDup (line_key <$> lines) ->
  size (read_vocab lines) = length lines /\
  forall (n : nat) (line : pystr),
    lines !! n = Some line ->
    read_vocab lines !! line_key line = Some (Z.of_nat n).
Proof.
  intros Hnd. split; [by apply read_vocab_size |].
  intros n line Hn. apply read_vocab_last. exists n. split; [done |].
  assert (Hk : (line_key <$> lines) !! n = Some (line_key line))
    by (by rewrite list_lookup_fmap, Hn).
  split; [done |]. intros n' Hn' H.
  pose proof (NoDup_lookup _ _ _ _ Hnd Hk H). lia.
Qed.

Lemma read_vocab_distinct_witness :
  size (read_vocab [[32; 10]; [97; 10]; [98; 10]]) = 3%nat /\
  forall (n : nat) (line : pystr),
    [[32; 10]; [97; 10]; [98; 10]] !! n = Some line ->
    read_vocab [[32; 10]; [97; 10]; [98; 10]] !! line_key line =
      Some (Z.of_nat n).
Proof.
  apply (read_vocab_distinct [[32; 10]; [97; 10]; [98; 10]]).
  apply (bool_decide_unpack _). vm_compute. exact I.
Defined.

(** X14. A tokenizer name other than the four of the docstring assigns
    neither [vocab_char_map] nor [vocab_size], and the [return] raises
    [UnboundLocalError]; no file is opened. *)
Theorem get_tokenizer_unknown_name (open_ : pystr -> outcome (list pystr))
    (data dataset_name tokenizer : pystr) :
  tokenizer ∉ [py "pinyin"; py "char"; py "byte"; py "custom"] ->
  get_tokenizer open_ data dataset_name tokenizer =
    Raises (Exn UnboundLocalError).
Proof.
  rewrite !not_elem_of_cons. intros (Hpinyin & Hchar & Hbyte & Hcustom & _).
  unfold get_tokenizer.
  rewrite (bool_decide_eq_false_2 (_ \/ _)) by (by intros [|]).
  by rewrite !bool_decide_eq_false_2 by done.
Qed.

Lemma get_tokenizer_unknown_name_witness :
  get_tokenizer (fun _ => Returns []) (py "data") (py "Emilia") (py "bpe") =
    Raises (Exn UnboundLocalError).
Proof.
  apply get_tokenizer_unknown_name.
  apply (bool_decide_unpack _). vm_compute. exact I.
Defined.

(** X15. With the pinyin or the char tokenizer and a vocabulary file that
    opens, [get_tokenizer] returns the vocabulary and its size exactly when
    the first line carries the key of one space and no later line does; it
    raises [KeyError] when no line carries that key, and [AssertionError]
    when a later line does. *)
Theorem get_tokenizer_vocab_outcome (open_ : pystr -> outcome (list pystr))
    (data dataset_name tokenizer : pystr) (lines : list pystr) :
  tokenizer = py "pinyin" \/ tokenizer = py "char" ->
  open_ (path_join data
           (dataset_name ++ py "_" ++ tokenizer ++ py "/vocab.txt")) =
    Returns lines ->
  match get_tokenizer open_ data dataset_name tokenizer with
  | Returns r =>
      r = (Some (read_vocab lines), Z.of_nat (size (read_vocab lines))) /\
      exists l rest,
        lines = l :: rest /\ line_key l = py " " /\
        py " " ∉ line_key <$> rest
  | Raises e =>
      (e = KeyError /\ py " " ∉ line_key <$> lines) \/
      (e = AssertionError /\
       exists n : nat,
         (0 < n)%nat /\ (line_key <$> lines) !! n = Some (py " "))
  end.
Proof.
  intros Hname Hopen. unfold get_tokenizer.
  rewrite bool_decide_eq_true_2 by done. rewrite Hopen.
  destruct (read_vocab lines !! py " ") as [i|] eqn:Hsp.
  - apply read_vocab_last in Hsp as (n & -> & Hn & Hlast).
    destruct (Z.eqb_spec (Z.of_nat n) 0) as [H0|H0].
    + split; [done |]. assert (n = 0%nat) as -> by lia.
      destruct lines as [|l rest]; [done |]. exists l, rest.
      split; [done |]. simpl in Hn. injection Hn as Hl. split; [done |].
      intros Hin. apply list_elem_of_lookup_1 in Hin as [n' Hn'].
      by apply (Hlast (S n')); [lia |].
    + right. split; [done |]. exists n. split; [lia | done].
  - left. split; [done |]. by apply read_vocab_None.
Qed.

Lemma get_tokenizer_vocab_outcome_witness :
  match get_tokenizer (fun _ => Returns [[32; 10]; [97; 10]]) (py "data")
          (py "Emilia") (py "pinyin") with
  | Returns r =>
      r = (Some (read_vocab [[32; 10]; [97; 10]]),
           Z.of_nat (size (read_vocab [[32; 10]; [97; 10]]))) /\
      exists l rest,
        [[32; 10]; [97; 10]] = l :: rest /\ line_key l = py " " /\
        py " " ∉ line_key <$> rest
  | Raises e =>
      (e = KeyError /\ py " " ∉ line_key <$> [[32; 10]; [97; 10]]) \/
      (e = AssertionError /\
       exists n : nat,
         (0 < n)%nat /\
         (line_key <$> [[32; 10]; [97; 10]]) !! n = Some (py " "))
  end.
Proof.
  apply (get_tokenizer_vocab_outcome (fun _ => Returns [[32; 10]; [97; 10]])
           (py "data") (py "Emilia") (py "pinyin") [[32; 10]; [97; 10]]).
  - by left.
  - reflexivity.
Defined.

(** ** Tokens as indices *)

Lemma pad_sequence_single (row : list Z) (padding_value : Z) :
  pad_sequence [row] padding_value = Returns [row].
Proof.
  unfold pad_sequence. simpl. rewrite Nat.max_0_r, Nat.sub_diag. simpl.
  by rewrite app_nil_r.
Qed.

(** X16. Read back through the vocabulary of a file with no repeated key,
    the keys of the file in their order are the indices 0, 1, ... in their
    order. *)
Theorem list_str_to_idx_of_keys (lines : list pystr) (padding_value : Z) :
  NoDup (line_key <$> lines) ->
  list_str_to_idx [line_key <$> lines] (read_vocab lines) padding_value =
    Returns [Z.of_nat <$> seq 0 (length lines)].
Proof.
  intros Hnd. unfold list_str_to_idx. cbn [fmap list_fmap].
  rewrite pad_sequence_single. do 2 f_equal.
  apply list_eq. intros n. rewrite !list_lookup_fmap.
  destruct (lines !! n) as [line|] eqn:Hn; simpl.
  - apply lookup_lt_Some in Hn as Hlt. rewrite lookup_seq_lt by done. simpl.
    assert (Hk : (line_key <$> lines) !! n = Some (line_key line))
      by (by rewrite list_lookup_fmap, Hn).
    assert (Hv : read_vocab lines !! line_key line = Some (Z.of_nat n)).
    { apply read_vocab_last. exists n. split; [done |]. split; [done |].
      intros n' Hn' H. pose proof (NoDup_lookup _ _ _ _ Hnd Hk H). lia. }
    by rewrite Hv.
  - apply lookup_ge_None in Hn.
    by rewrite (proj2 (lookup_ge_None _ _)) by (rewrite length_seq; lia).
Qed.

Lemma list_str_to_idx_of_keys_witness :
  list_str_to_idx [line_key <$> [[32; 10]; [97; 10]; [98; 10]]]
    (read_vocab [[32; 10]; [97; 10]; [98; 10]]) (-1) =
    Returns [Z.of_nat <$> seq 0 3].
Proof.
  apply (list_str_to_idx_of_keys [[32; 10]; [97; 10]; [98; 10]] (-1)).
  apply (bool_decide_unpack _). vm_compute. exact I.
Defined.

(** X17. With a vocabulary [get_tokenizer] returned for the pinyin or the
    char tokenizer, a token that is not in the vocabulary gets index 0, the
    index of the space: the two cannot be told apart in the indices. *)
Theorem unknown_token_indexed_as_space
    (open_ : pystr -> outcome (list pystr))
    (data dataset_name tokenizer : pystr) (vocab : gmap pystr Z)
    (vocab_size padding_value : Z) (before after : list pystr)
    (token : pystr) :
  tokenizer = py "pinyin" \/ tokenizer = py "char" ->
  get_tokenizer open_ data dataset_name tokenizer =
    Returns (Some vocab, vocab_size) ->
  vocab !! token = None ->
  list_str_to_idx [before ++ token :: after] vocab padding_value =
    list_str_to_idx [before ++ py " " :: after] vocab padding_value.
Proof.
  intros Hname Hget Htoken. unfold get_tokenizer in Hget.
  rewrite bool_decide_eq_true_2 in Hget by done.
  destruct (open_ _) as [lines|]; [| done].
  destruct (read_vocab lines !! py " ") as [i|] eqn:Hsp; [| done].
  destruct (Z.eqb_spec i 0) as [-> |]; [| done].
  injection Hget as <- _.
  unfold list_str_to_idx. cbn [fmap list_fmap].
  by rewrite !fmap_app, !fmap_cons, Htoken, Hsp.
Qed.

Lemma unknown_token_indexed_as_space_witness :
  list_str_to_idx [[py "a"] ++ py "zzz" :: [py "a"]]
    (read_vocab [[32; 10]; [97; 10]]) (-1) =
  list_str_to_idx [[py "a"] ++ py " " :: [py "a"]]
    (read_vocab [[32; 10]; [97; 10]]) (-1).
Proof.
  apply (unknown_token_indexed_as_space
           (fun _ => Returns [[32; 10]; [97; 10]]) (py "data") (py "Emilia")
           (py "pinyin") (read_vocab [[32; 10]; [97; 10]]) 2 (-1)
           [py "a"] [py "a"] (py "zzz")).
  - by left.
  - reflexivity.
  - reflexivity.
Defined.

(** ** The engine: diagnostics, exceptions, lengths *)

(** X22. Without the debug flag the call prints nothing, except the one
    line on the two lengths when they differ; what it prints before an
    exception is nothing either. *)
Theorem silent_without_debug (cut lazy_pinyin : pystr -> list pystr)
    (g2pw_lazy_pinyin : pystr -> list pyobj) (polyphone : bool)
    (text_list : list pystr) :
  match convert_char_to_pinyin cut lazy_pinyin g2pw_lazy_pinyin polyphone
          false text_list with
  | Ok (_, msgs) =>
      msgs = [] \/
      exists cursor new : nat,
        cursor <> new /\ msgs = [LengthDifferent cursor new]
  | Raise _ out => out = []
  end.
Proof. by apply convert_printed_off. Qed.

Lemma convert_raises_witness :
  (UnicodeEncodeError = UnboundLocalError /\ [[0xD800]] = @nil pystr) \/
  exists line seg,
    line ∈ [[0xD800]] /\ seg ∈ Demo.cut (translate custom_trans line) /\
    ((UnicodeEncodeError = UnicodeEncodeError /\ utf8_len seg = None) \/
     (UnicodeEncodeError = IndexError /\ true = true /\
      utf8_len seg = Some (3 * length seg)%nat /\
      (length (Demo.lazy_pinyin seg) < length seg)%nat)).
Proof.
  apply (convert_raises Demo.cut Demo.lazy_pinyin Demo.g2pw_lazy_pinyin true
           false [[0xD800]] UnicodeEncodeError []).
  reflexivity.
Defined.

Lemma convert_returns_witness :
  exists out msgs,
    demo_convert true false [Demo.go_ke; [Demo.ke]] = Ok (out, msgs) /\
    length out = length [Demo.go_ke; [Demo.ke]].
Proof.
  apply (convert_returns Demo.cut Demo.lazy_pinyin Demo.g2pw_lazy_pinyin true
           false [Demo.go_ke; [Demo.ke]]).
  - discriminate.
  - apply (bool_decide_unpack _). vm_compute. exact I.
Defined.

Lemma merged_length_deficit_witness :
  length [space; [Demo.kabu]] =
    (length [space] +
     (1 - length (line_stream Demo.g2pw_lazy_pinyin [Demo.kabu])))%nat.
Proof.
  apply (merged_length_deficit Demo.cut Demo.lazy_pinyin
           Demo.g2pw_lazy_pinyin true false [Demo.kabu]
           (Walk [space; [Demo.kabu]] [space] 1 [])).
  - intros c _. unfold Demo.lazy_pinyin. cbn [Demo.pinyin_from].
    by destruct (Demo.pinyin_table !! c).
  - reflexivity.
Defined.

Lemma chinese_segment_interleaves_witness :
  exists st',
    walk_segment Demo.lazy_pinyin true false [py "ke4"] [Demo.ke; Demo.qi]
      (Walk [] [] 0 []) = Ok st' /\
    char_list st' = [space; py "ke4"; space; py "qi4"] /\
    char_list_whole st' = [space; py "ke4"; space] /\
    j st' = 2%nat.
Proof.
  apply (chinese_segment_interleaves Demo.lazy_pinyin true false [py "ke4"]
           [Demo.ke; Demo.qi] (Walk [] [] 0 [])).
  - by repeat constructor.
  - intros _. vm_compute. lia.
Defined.

(** ** The context-free side does not see the sentence-level romanizer *)

Lemma take_token_view (dbg dbg' : bool) (f f' : list pystr) (st st0 : walk) :
  context_free_view (Ok st) = context_free_view (Ok st0) ->
  context_free_view (Ok (take_token dbg f st)) =
  context_free_view (Ok (take_token dbg' f' st0)).
Proof.
  simpl. intros [= Hcl Hj].
  by rewrite !take_token_char_list, !take_token_j, Hcl, Hj.
Qed.

Lemma pronounceable_char_view (dbg dbg' : bool) (seg_ f f' : list pystr)
    (i : nat) (c : char) (st st0 : walk) :
  context_free_view (Ok st) = context_free_view (Ok st0) ->
  context_free_view (pronounceable_char dbg seg_ f i c st) =
  context_free_view (pronounceable_char dbg' seg_ f' i c st0).
Proof.
  intros Hv. unfold pronounceable_char.
  destruct (seg_ !! i) as [tok|]; [| done].
  destruct (is_chinese c).
  - apply take_token_view. simpl in *. injection Hv as Hcl Hj.
    by rewrite Hcl, Hj.
  - simpl in *. injection Hv as Hcl Hj. by rewrite Hcl, Hj.
Qed.

Lemma pronounceable_loop_view (dbg dbg' : bool) (seg_ f f' : list pystr)
    (cs : pystr) :
  forall (i : nat) (st st0 : walk),
    context_free_view (Ok st) = context_free_view (Ok st0) ->
    context_free_view (pronounceable_loop dbg seg_ f i cs st) =
    context_free_view (pronounceable_loop dbg' seg_ f' i cs st0).
Proof.
  induction cs as [|c cs IH]; intros i st st0 Hv; [done |].
  cbn [pronounceable_loop].
  pose proof (pronounceable_char_view dbg dbg' seg_ f f' i c st st0 Hv) as Hc.
  destruct (pronounceable_char dbg seg_ f i c st),
           (pronounceable_char dbg' seg_ f' i c st0); try done.
  by apply IH.
Qed.

Lemma mixed_char_view (lazy_pinyin : pystr -> list pystr) (dbg dbg' : bool)
    (f f' : list pystr) (st st0 : walk) (c : char) :
  context_free_view (Ok st) = context_free_view (Ok st0) ->
  context_free_view (Ok (mixed_char lazy_pinyin dbg f st c)) =
  context_free_view (Ok (mixed_char lazy_pinyin dbg' f' st0 c)).
Proof.
  intros Hv. unfold mixed_char.
  destruct (c <? 256); [| destruct (is_chinese c)].
  - simpl in *. injection Hv as Hcl Hj. by rewrite Hcl, Hj.
  - apply take_token_view. simpl in *. injection Hv as Hcl Hj.
    by rewrite Hcl, Hj.
  - simpl in *. injection Hv as Hcl Hj. by rewrite Hcl, Hj.
Qed.

Lemma mixed_segment_view (lazy_pinyin : pystr -> list pystr)
    (dbg dbg' : bool) (f f' : list pystr) (seg : pystr) :
  forall st st0 : walk,
    context_free_view (Ok st) = context_free_view (Ok st0) ->
    context_free_view (Ok (mixed_segment lazy_pinyin dbg f seg st)) =
    context_free_view (Ok (mixed_segment lazy_pinyin dbg' f' seg st0)).
Proof.
  unfold mixed_segment.
  induction seg as [|c seg IH]; intros st st0 Hv; [done |].
  cbn [foldl]. by apply IH, mixed_char_view.
Qed.

Lemma walk_segment_view (lazy_pinyin : pystr -> list pystr)
    (polyphone dbg dbg' : bool) (f f' : list pystr) (seg : pystr)
    (st st0 : walk) :
  context_free_view (Ok st) = context_free_view (Ok st0) ->
  context_free_view (walk_segment lazy_pinyin polyphone dbg f seg st) =
  context_free_view (walk_segment lazy_pinyin polyphone dbg' f' seg st0).
Proof.
  intros Hv. unfold walk_segment.
  destruct (utf8_len seg) as [n|]; [| done].
  destruct (n =? length seg)%nat.
  { unfold literal_segment. simpl in *. injection Hv as Hcl Hj.
    rewrite Hcl. destruct (boundary_needed _ _); simpl; by rewrite Hcl, Hj. }
  destruct (polyphone && (n =? 3 * length seg)%nat).
  - by apply pronounceable_loop_view.
  - by apply mixed_segment_view.
Qed.

Lemma walk_segments_view (lazy_pinyin : pystr -> list pystr)
    (polyphone dbg dbg' : bool) (f f' : list pystr) (segs : list pystr) :
  forall st st0 : walk,
    context_free_view (Ok st) = context_free_view (Ok st0) ->
    context_free_view (walk_segments lazy_pinyin polyphone dbg f segs st) =
    context_free_view (walk_segments lazy_pinyin polyphone dbg' f' segs st0).
Proof.
  induction segs as [|seg segs IH]; intros st st0 Hv; [done |].
  cbn [walk_segments].
  pose proof (walk_segment_view lazy_pinyin polyphone dbg dbg' f f' seg
                st st0 Hv) as Hseg.
  destruct (walk_segment lazy_pinyin polyphone dbg f seg st),
           (walk_segment lazy_pinyin polyphone dbg' f' seg st0); try done.
  by apply IH.
Qed.

(** X23. The context-free sequence of a line, its cursor and the exception
    of the line, if any, are the same whatever the sentence-level romanizer
    returns and whether or not the debug flag is set: the stream only
    reaches the merged sequence. *)
Theorem context_free_ignores_sentence_model
    (cut lazy_pinyin : pystr -> list pystr)
    (g2pw_lazy_pinyin g2pw_lazy_pinyin' : pystr -> list pyobj)
    (polyphone isDebug isDebug' : bool) (line : pystr) :
  context_free_view
    (convert_line cut lazy_pinyin g2pw_lazy_pinyin polyphone isDebug line) =
  context_free_view
    (convert_line cut lazy_pinyin g2pw_lazy_pinyin' polyphone isDebug' line).
Proof. unfold convert_line. by apply walk_segments_view. Qed.

(** ** The stream of sentence-level tokens *)

(** X24. The pattern accepts exactly the strings of the documented shape,
    letters and then at most one tone digit, and these strings followed by
    one newline. *)
Theorem pattern_accepts (s : pystr) :
  TONE3_STYLE_PATTERN s = true <->
  tone3_shape s \/ exists s', s = s' ++ [10] /\ tone3_shape s'.
Proof.
  rewrite TONE3_STYLE_PATTERN_spec. unfold tone3_shape, single_newline. split.
  - intros (letters & tone & nl & -> & Hne & Hl & Ht & [-> | ->]).
    + left. exists letters, tone. by rewrite app_nil_r.
    + right. exists (letters ++ tone). split; [by rewrite app_assoc |].
      by exists letters, tone.
  - intros [(letters & tone & -> & Hne & Hl & Ht)
           | (s' & -> & letters & tone & -> & Hne & Hl & Ht)].
    + exists letters, tone, []. rewrite app_nil_r.
      split; [done |]. split; [done |]. split; [done |]. split; [done |].
      by left.
    + exists letters, tone, [10]. rewrite app_assoc.
      split; [done |]. split; [done |]. split; [done |]. split; [done |].
      by right.
Qed.

(** X25. Every token of the stream matches the pattern, also after the
    replacement of the translation map, and the stream has at most one
    token per item of the sentence. *)
Theorem filtered_sentence_entries (sentence : list pyobj) :
  Forall (fun item => TONE3_STYLE_PATTERN item = true)
         (filtered_sentence sentence) /\
  (length (filtered_sentence sentence) <= length sentence)%nat.
Proof.
  unfold filtered_sentence. split.
  - apply Forall_fmap, Forall_forall. intros item Hitem. simpl.
    apply elem_of_filtered_sentence_raw in Hitem as [_ Hpat]. simpl in Hpat.
    unfold translation_map.
    destruct (decide (item = shei2)) as [-> | Hne].
    + by rewrite lookup_singleton_eq.
    + by rewrite lookup_singleton_ne.
  - rewrite length_fmap.
    pose proof (sublist_length _ _ (filtered_sentence_raw_sublist sentence))
      as Hlen.
    by rewrite length_fmap in Hlen.
Qed.

(** ** The translation of punctuation *)

Lemma custom_trans_image (c : char) :
  exists c',
    default [c] (custom_trans !! c) = [c'] /\ custom_trans !! c' = None.
Proof.
  destruct (custom_trans !! c) as [img|] eqn:Hc.
  - unfold custom_trans in Hc.
    repeat (apply lookup_insert_Some in Hc as [[<- <-] | [_ Hc]];
            [eexists; split; [reflexivity | by vm_compute] |]).
    done.
  - by exists c.
Qed.

Lemma translate_cons (c : char) (text : pystr) :
  translate custom_trans (c :: text) =
    default [c] (custom_trans !! c) ++ translate custom_trans text.
Proof. done. Qed.

(** X26. The translation of a line replaces character by character: the
    line keeps its length, no character of the result has an entry in the
    table, and translating again changes nothing. *)
Theorem translate_custom_trans (text : pystr) :
  length (translate custom_trans text) = length text /\
  Forall (fun c => custom_trans !! c = None) (translate custom_trans text) /\
  translate custom_trans (translate custom_trans text) =
    translate custom_trans text.
Proof.
  induction text as [|c text (IHlen & IHnone & IHidem)]; [by repeat split |].
  rewrite translate_cons.
  destruct (custom_trans_image c) as (c' & -> & Hc').
  cbn [app]. split; [| split].
  - cbn [length]. by rewrite IHlen.
  - by constructor.
  - by rewrite translate_cons, Hc', IHidem.
Qed.
